(** * ProcessThread: encode-plan derivation and pipeline orchestration

    A shallow embedding of [src/processing/worker.py] (class [ProcessThread]).

    Conventions of the embedding.
    - Python floats are embedded as exact rationals ([Q]); numeric results
      are compared with [==] ([Qeq]).  Python [int]s are [Z].  A rational
      stands for the exact value of the float it models; sums, products and
      quotients are not rounded.
    - [max(a, b)] and [min(a, b)] are [Qmax a b] and [Qmin a b]: both
      return their first argument unless the second is strictly larger
      (resp. smaller), as Python does.
    - [int(x)] on a float truncates toward zero ([py_int]);
      [round(x)] and [round(x, 3)] round half to even.
    - Signals are recorded as an event trace; the external processes, the
      file-size query, the prober and [shutil.move] are an oracle ([env]).
    - Division by a speed factor of 0 raises in Python: [init] gives no
      job for it and [run] takes the [except] clause.  The tempo loop of
      lines 465-466 never exits for a speed below 0: [run] then does not
      return ([returns]).
    - Log lines, status strings and the filter-graph text (HUD geometry,
      codec flags) carry no control flow of [run] and are left out. *)

From Stdlib Require Import QArith Qminmax Qround Qabs ZArith List Bool Lia Lqa.
From Stdlib Require Import Sorted.
Import ListNotations.

Open Scope Q_scope.

(** ** Numeric helpers *)

(** Python [int(x)] for a float [x]: truncation toward zero. *)
Definition py_int (x : Q) : Z := Z.quot (Qnum x) (Zpos (Qden x)).

(** Python [round(x)]: nearest integer, ties to the even one. *)
Definition py_round (x : Q) : Z :=
  let f := Qfloor x in
  let r := x - inject_Z f in
  match Qcompare r (1 # 2) with
  | Lt => f
  | Gt => (f + 1)%Z
  | Eq => if Z.even f then f else (f + 1)%Z
  end.

(** Python [round(x, 3)]. *)
Definition round3 (x : Q) : Q := inject_Z (py_round (x * 1000)) / 1000.

(** ** Constructor arguments and instance state *)

(** The arguments of [ProcessThread.__init__] that reach the control flow
    of the job.  Paths, the resolution tag, the mobile-format and overlay
    flags and the background-music options only shape the filter text. *)
Record args := {
  a_start_time : Q;
  a_end_time : Q;
  a_speed_factor : Q;
  a_quality_level : Z;
  a_original_total_duration : Q;
  a_disable_fades : bool;
  a_intro_still_sec : Q;
  a_intro_from_midpoint : bool
}.

(** The attributes of [self] set by [__init__].  [duration_corrected0] is
    [self.duration_corrected] as [__init__] leaves it; [run] overwrites it
    at line 192 before reading it ([duration_corrected] below). *)
Record job := {
  start_time : Q;
  end_time : Q;
  duration : Q;
  speed_factor : Q;
  quality_level : Z;
  keep_highest_res : bool;
  lower_quality : bool;
  target_mb : option Q;
  original_total_duration : Q;
  disable_fades : bool;
  intro_from_midpoint : bool;
  intro_still_sec : Q;
  start_time_corrected : Q;
  duration_corrected0 : Q;
  _estimated_total_duration : Q
}.

(** [x / self.speed_factor if self.speed_factor != 1.0 else x], for a
    speed other than 0. *)
Definition speed_corrected (speed x : Q) : Q :=
  if Qeq_dec speed 1 then x else x / speed.

(** Lines 34-45: the target-MB table. *)
Definition tier_target_mb (q : Z) : option Q :=
  if (4 <=? q)%Z then None
  else if (q =? 3)%Z then Some 90
  else if (q =? 2)%Z then Some 45
  else if (q =? 1)%Z then Some 25
  else Some 15.

(** Lines 68-73: the effective intro still duration. *)
Definition init_intro_still_sec (from_midpoint : bool) (sec : Q) : Q :=
  if negb from_midpoint || (if Qlt_le_dec 0 sec then false else true)
  then 0 else sec.

(** The attributes assigned by [ProcessThread.__init__], lines 17-77. *)
Definition init_attrs (a : args) : job :=
  let q := a_quality_level a in
  let dur := a_end_time a - a_start_time a in
  let intro := init_intro_still_sec (a_intro_from_midpoint a) (a_intro_still_sec a) in
  let dc := Qmax 0 (speed_corrected (a_speed_factor a) dur) in
  {| start_time := a_start_time a;
     end_time := a_end_time a;
     duration := dur;
     speed_factor := a_speed_factor a;
     quality_level := q;
     keep_highest_res := (4 <=? q)%Z;
     lower_quality := (q <=? 0)%Z;
     target_mb := tier_target_mb q;
     original_total_duration := a_original_total_duration a;
     disable_fades := a_disable_fades a;
     intro_from_midpoint := a_intro_from_midpoint a;
     intro_still_sec := intro;
     start_time_corrected := speed_corrected (a_speed_factor a) (a_start_time a);
     duration_corrected0 := dc;
     _estimated_total_duration := Qmax 1 (dc + intro) |}.

(** [ProcessThread.__init__]: lines 74-75 divide by the speed factor when
    it is not 1.0, so no job is constructed for a speed of 0. *)
Definition init (a : args) : option job :=
  if Qeq_dec (a_speed_factor a) 0 then None else Some (init_attrs a).

(** ** TrimWindowPlanner: [run], lines 128-192 *)

Definition FADE_DUR : Q := 15 # 10.
Definition EPS : Q := 1 # 100.

(** The locals of [run] that describe the trim window, before the speed
    correction of lines 185-189. *)
Record trim := {
  in_ss : Q;
  in_t : Q;
  vfade_in_d : Q;
  vfade_out_d : Q;
  vfade_out_st : Q;
  output_clip_duration : Q
}.

(** Lines 135-143: exact trim, fades disabled. *)
Definition exact_trim (user_start user_end : Q) : trim :=
  let t := user_end - user_start in
  {| in_ss := user_start; in_t := t;
     vfade_in_d := 0; vfade_out_d := 0; vfade_out_st := 0;
     output_clip_duration := t |}.

(** Lines 150-158: seek start and fade-in duration. *)
Definition padded_start (user_start : Q) : Q * Q :=
  if Qlt_le_dec user_start (FADE_DUR - EPS)
  then (user_start, 0)
  else (user_start - FADE_DUR, FADE_DUR).

(** Lines 161-169: end of the seek window ([adj_end]) and fade-out duration. *)
Definition padded_end (user_end total_orig : Q) : Q * Q :=
  if Qlt_le_dec 0 total_orig then
    if Qlt_le_dec (total_orig - FADE_DUR + EPS) user_end
    then (total_orig, 0)
    else (user_end + FADE_DUR, FADE_DUR)
  else (user_end + FADE_DUR, FADE_DUR).

(** Lines 145-179: padded trim, fades enabled. *)
Definition padded_trim (user_start user_end total_orig : Q) : trim :=
  let '(ss, fin) := padded_start user_start in
  let '(adj_end, fout) := padded_end user_end total_orig in
  let t := Qmax 0 (adj_end - ss) in
  {| in_ss := ss; in_t := t;
     vfade_in_d := fin; vfade_out_d := fout;
     vfade_out_st := if Qlt_le_dec 0 fout then Qmax 0 (t - fout) else t;
     output_clip_duration := t |}.

(** Lines 128-179. *)
Definition trim_window (j : job) : trim :=
  if disable_fades j
  then exact_trim (start_time j) (end_time j)
  else padded_trim (start_time j) (end_time j) (original_total_duration j).

(** Lines 185-189: the output-side durations are divided by the speed
    factor; [in_ss] and [in_t] stay in source time. *)
Definition speed_correct (speed : Q) (w : trim) : trim :=
  {| in_ss := in_ss w; in_t := in_t w;
     vfade_in_d := speed_corrected speed (vfade_in_d w);
     vfade_out_d := speed_corrected speed (vfade_out_d w);
     vfade_out_st := speed_corrected speed (vfade_out_st w);
     output_clip_duration := speed_corrected speed (output_clip_duration w) |}.

(** The trim window used by the rest of [run]. *)
Definition plan_trim (j : job) : trim :=
  speed_correct (speed_factor j) (trim_window j).

(** Line 192: [self.duration_corrected] as reassigned by [run]. *)
Definition duration_corrected (j : job) : Q :=
  Qmax 0 (output_clip_duration (plan_trim j)).

(** Lines 200-205. *)
Definition intro_len_for_size (j : job) : Q :=
  if negb (disable_fades j) && intro_from_midpoint j
     && (if Qlt_le_dec 0 (intro_still_sec j) then true else false)
  then Qmax 0 (intro_still_sec j) else 0.

Definition effective_duration (j : job) : Q :=
  duration_corrected j + intro_len_for_size j.

(** ** BitrateBudgetEstimator: [run], lines 199-267 *)

(** The terminal messages of [finished_signal]. *)
Inductive result_msg :=
| MsgDurationZero        (* "Selected video duration is zero." *)
| MsgTooShort            (* "Video duration is too short for the target file size." *)
| MsgCoreFailed          (* "Core encode failed (STEP 1/3)." *)
| MsgFinalizeFailed      (* "Failed to finalize output file." *)
| MsgIntroFailed         (* "Intro encode failed (STEP 2/3)." *)
| MsgConcatFailed        (* "Concat failed (STEP 3/3)." *)
| MsgUnexpected          (* "An unexpected error occurred: ..." *)
| MsgOutputPath.         (* the output path, on success *)

(** Outcome of the estimation block: a bitrate, an early [return] after a
    failure result, or an exception that leaves the block. *)
Inductive budget :=
| BudgetOk (audio_kbps video_kbps : Z)
| BudgetFail (m : result_msg)
| BudgetRaise.

Definition AUDIO_KBPS : Z := 128.
Definition min_video_kbps : Z := 300.

(** Lines 211-227, [_probe_audio_kbps]: [bit_rate] is the integer read from
    the prober, [None] when anything in the probe raised. *)
Definition _probe_audio_kbps (bit_rate : option Z) : option Z :=
  match bit_rate with
  | Some br => Some (Z.max 8 (py_round (inject_Z br / 1000)))
  | None => None
  end.

(** Lines 245-246 and 254-255: [t_mb * 8 * 1024 * 1024], with 52 MB when
    no target is set. *)
Definition fixed_target_bits (tmb : option Q) : Q :=
  let t_mb := match tmb with Some m => m | None => 52 end in
  t_mb * 8 * 1024 * 1024.

(** Lines 245-252 and 254-264: the fixed-MB budget.  [check_zero] is the
    test of lines 256-258, which the fallback of lines 245-252 does not
    make; there the division of line 252 raises when the duration is 0. *)
Definition fixed_mb_budget (check_zero : bool) (tmb : option Q)
    (audio_kbps : Z) (eff : Q) : budget :=
  let target_file_size_bits := fixed_target_bits tmb in
  if check_zero && (if Qlt_le_dec 0 eff then false else true)
  then BudgetFail MsgDurationZero
  else
    let audio_bits := inject_Z audio_kbps * 1024 * eff in
    let video_bits := target_file_size_bits - audio_bits in
    if Qlt_le_dec video_bits 0 then BudgetFail MsgTooShort
    else if Qeq_dec (1024 * eff) 0 then BudgetRaise
    else BudgetOk audio_kbps (py_int (video_bits / (1024 * eff))).

(** Lines 208-242: size-matching mode with a readable source size. *)
Definition match_source_budget (src_bytes : Z) (probed : option Z) (eff : Q)
    : budget :=
  let target_file_size_bits := (Z.max 1 src_bytes * 8)%Z in
  let audio_kbps :=
    match probed with
    | Some p => if (p =? 0)%Z then AUDIO_KBPS else p
    | None => AUDIO_KBPS
    end in
  if Qlt_le_dec 0 eff then
    let audio_bits := inject_Z audio_kbps * 1024 * eff in
    let video_bits := inject_Z target_file_size_bits - audio_bits in
    if Qlt_le_dec 0 video_bits
    then BudgetOk audio_kbps
           (Z.max min_video_kbps (py_int (video_bits / (1024 * eff))))
    else BudgetOk audio_kbps min_video_kbps
  else BudgetFail MsgDurationZero.

(** An external process as [run] sees it: its output lines (each
    abstracted to the timestamp parsed from it, if any), its return code,
    and whether it has left its output file. *)
Record proc := {
  p_lines : list (option Q);
  p_returncode : Z;
  p_wrote_output : bool
}.

(** The oracle for everything outside [run]: the source size ([None]
    when [os.path.getsize] raises), the bit rate read by the prober, the
    three encoder runs ([None] when [Popen] raises) and whether
    [shutil.move] succeeds. *)
Record env := {
  src_bytes : option Z;
  probe_bit_rate : option Z;
  core_proc : option proc;
  intro_proc : option proc;
  concat_proc : option proc;
  move_ok : bool
}.

(** Lines 206-267. *)
Definition estimate_bitrate (j : job) (e : env) : budget :=
  let eff := effective_duration j in
  if keep_highest_res j then
    match src_bytes e with
    | Some sz => match_source_budget sz (_probe_audio_kbps (probe_bit_rate e)) eff
    | None => fixed_mb_budget false (target_mb j) AUDIO_KBPS eff
    end
  else fixed_mb_budget true (target_mb j) AUDIO_KBPS eff.

(** ** SpeedAdjuster: the audio tempo chain, [run], lines 456-471 *)

(** Lines 461-462: [while s > 2.0: chain.append(2.0); s /= 2.0].
    [None] when the fuel runs out before the loop exits. *)
Fixpoint halve_loop (fuel : nat) (s : Q) (chain : list Q) : option (Q * list Q) :=
  if Qlt_le_dec 2 s then
    match fuel with
    | O => None
    | S f => halve_loop f (s / 2) (chain ++ [2])
    end
  else Some (s, chain).

(** Lines 465-466: [while s < 0.5: chain.append(0.5); s /= 0.5]. *)
Fixpoint double_loop (fuel : nat) (s : Q) (chain : list Q) : option (Q * list Q) :=
  if Qlt_le_dec s (1 # 2) then
    match fuel with
    | O => None
    | S f => double_loop f (s / (1 # 2)) (chain ++ [1 # 2])
    end
  else Some (s, chain).

(** Lines 458-467: the raw chain. *)
Definition raw_chain (fuel : nat) (speed : Q) : option (list Q) :=
  let loop := if Qlt_le_dec speed 1 then double_loop else halve_loop in
  match loop fuel speed [] with
  | Some (s, chain) => Some (chain ++ [s])
  | None => None
  end.

(** Line 468: drop the factors within 1e-3 of 1, round the others to three
    decimals and clamp them into [0.5, 2.0]. *)
Definition keep_factor (f : Q) : bool :=
  if Qlt_le_dec (1 # 1000) (Qabs (f - 1)) then true else false.

Definition clamp_factor (f : Q) : Q := Qmin 2 (Qmax (1 # 2) (round3 f)).

Definition finish_chain (chain : list Q) : list Q :=
  map clamp_factor (filter keep_factor chain).

(** A number of iterations that suffices for either loop when [0 < speed]. *)
Definition tempo_fuel (speed : Q) : nat :=
  Z.to_nat (Z.log2_up (Qceiling (Qmax speed (/ speed)))).

(** Lines 456-469: the factors of [audio_filter_cmd]; the empty list is the
    empty string.  [None]: the loop does not exit within [fuel] rounds. *)
Definition atempo_chain (fuel : nat) (speed : Q) : option (list Q) :=
  if Qeq_dec speed 1 then Some []
  else match raw_chain fuel speed with
       | Some chain => Some (finish_chain chain)
       | None => None
       end.

Definition audio_filter_chain (speed : Q) : option (list Q) :=
  atempo_chain (tempo_fuel speed) speed.

Definition chain_product (chain : list Q) : Q := fold_right Qmult 1 chain.

(** ** ProgressReporter: [run], lines 618-632 *)

(** Line 618. *)
Definition core_progress_weight (j : job) : Q :=
  if Qlt_le_dec 0 (intro_still_sec j) then 8 # 10 else 1.

(** Lines 630-631, for one parsed timestamp [t] (seconds).  The quotient
    and the products are exact here; Python rounds each of them to a
    binary float before [int()], so at an exact integer boundary it can
    emit one less ([t = 29] of [100] gives 28, here 29).  What is proved
    of these values below are bounds and orderings that hold either way. *)
Definition core_progress (w dur t : Q) : Z :=
  let percent := t / dur in
  py_int (Qmax 0 (Qmin (100 * w) (percent * 100 * w))).

(** Lines 622-632.  A line of encoder output is abstracted to the value of
    [_parse_time_to_seconds] on its [time=] field, [None] when the line has
    no such field. *)
Definition core_progress_values (j : job) (lines : list (option Q)) : list Z :=
  flat_map
    (fun line =>
       match line with
       | Some current_seconds =>
           if Qlt_le_dec 0 (duration_corrected j)
           then [core_progress (core_progress_weight j) (duration_corrected j)
                   current_seconds]
           else []
       | None => []
       end) lines.

(** Line 640: the skip condition. *)
Definition skip_intro (j : job) : bool :=
  disable_fades j
  || (if Qlt_le_dec (1 # 10000) (intro_still_sec j) then false else true).

(** ** EncodePipeline: [run], lines 121-738 *)

Inductive stage := CORE | INTRO | CONCAT.

Inductive passlog_ext :=
| ExtNone | Ext0 | Ext1 | ExtLog | ExtLog0 | ExtLog1.

(** The files [run] touches: the three temporary artifacts, the names
    derived from [temp_log_path] in the [finally] block, and the output. *)
Inductive path :=
| CoreTmp | IntroTmp | ConcatListTmp | PassLog (x : passlog_ext) | OutputFile.

Definition path_eq_dec (p q : path) : {p = q} + {p <> q}.
Proof. repeat decide equality. Defined.

Inductive event :=
| EProgress (p : Z)
| ESpawn (s : stage)
| EFinished (ok : bool) (m : result_msg).

(** The files on disk, the signals emitted so far, and the three locals
    that the [finally] block reads. *)
Record st := {
  fs : list path;
  trace : list event;
  core_path : option path;
  intro_path : option path;
  concat_path : option path
}.

Definition with_fs (s : st) (f : list path) : st :=
  {| fs := f; trace := trace s; core_path := core_path s;
     intro_path := intro_path s; concat_path := concat_path s |}.
Definition with_trace (s : st) (t : list event) : st :=
  {| fs := fs s; trace := t; core_path := core_path s;
     intro_path := intro_path s; concat_path := concat_path s |}.
Definition with_core_path (s : st) (p : option path) : st :=
  {| fs := fs s; trace := trace s; core_path := p;
     intro_path := intro_path s; concat_path := concat_path s |}.
Definition with_intro_path (s : st) (p : option path) : st :=
  {| fs := fs s; trace := trace s; core_path := core_path s;
     intro_path := p; concat_path := concat_path s |}.

Definition exists_ (p : path) (f : list path) : bool :=
  if in_dec path_eq_dec p f then true else false.
Definition remove_ (p : path) (f : list path) : list path :=
  remove path_eq_dec p f.
Definition create_ (p : path) (f : list path) : list path :=
  if exists_ p f then f else p :: f.

(** Control: fall through, [return], an exception in flight, or a loop
    that never exits. *)
Inductive ctl (A : Type) :=
| Next (a : A)
| Returned
| Raised
| Hung.
Arguments Next {A} a.
Arguments Returned {A}.
Arguments Raised {A}.
Arguments Hung {A}.

Definition M (A : Type) : Type := st -> ctl A * st.

Definition ret {A} (a : A) : M A := fun s => (Next a, s).
Definition bind {A B} (m : M A) (k : A -> M B) : M B :=
  fun s =>
    match m s with
    | (Next a, s') => k a s'
    | (Returned, s') => (Returned, s')
    | (Raised, s') => (Raised, s')
    | (Hung, s') => (Hung, s')
    end.

Notation "x <- m ;; k" := (bind m (fun x => k))
  (at level 61, m at next level, right associativity).
Notation "m ;; k" := (bind m (fun _ => k))
  (at level 61, right associativity).

Definition emit_all (evs : list event) : M unit :=
  fun s => (Next tt, with_trace s (trace s ++ evs)).
Definition emit (ev : event) : M unit := emit_all [ev].
(** [self.finished_signal.emit(ok, m); return]. *)
Definition finish {A} (ok : bool) (m : result_msg) : M A :=
  fun s => (Returned, with_trace s (trace s ++ [EFinished ok m])).
Definition raise {A} : M A := fun s => (Raised, s).
Definition hang {A} : M A := fun s => (Hung, s).

(** [subprocess.Popen]: raises when the process cannot be started. *)
Definition popen (sg : stage) (p : option proc) : M proc :=
  match p with
  | Some pr => emit (ESpawn sg) ;; ret pr
  | None => raise
  end.

(** [proc.wait()]: by now the process has left its output file, if any. *)
Definition wait (pr : proc) (out : path) : M Z :=
  fun s =>
    (Next (p_returncode pr),
     if p_wrote_output pr then with_fs s (create_ out (fs s)) else s).

(** Lines 642-649: [shutil.move(core_path, output_path); core_path = None],
    or the failure result of the [except] clause. *)
Definition move_core (e : env) : M unit :=
  fun s =>
    if exists_ CoreTmp (fs s) && move_ok e
    then (Next tt,
          with_core_path
            (with_fs s (create_ OutputFile (remove_ CoreTmp (fs s)))) None)
    else finish false MsgFinalizeFailed s.

(** Lines 693-696: the list file is written under the local name
    [concat_list_path]; the local [concat_path] is not assigned. *)
Definition write_concat_list : M unit :=
  fun s => (Next tt, with_fs s (create_ ConcatListTmp (fs s))).

(** Lines 185-189 divide by the speed factor when it is not 1.0: a speed
    of 0 raises. *)
Definition divide_by_speed (j : job) : M unit :=
  if Qeq_dec (speed_factor j) 0 then raise else ret tt.

(** Lines 456-469: the tempo chain is built before the encoder is
    started; when its loop never exits, neither does [run]. *)
Definition build_tempo_chain (j : job) : M (list Q) :=
  match audio_filter_chain (speed_factor j) with
  | Some chain => ret chain
  | None => hang
  end.

(** The body of the [try] block, lines 126-720. *)
Definition run_try (j : job) (e : env) : M unit :=
  divide_by_speed j ;;
  _ <- (match estimate_bitrate j e with
        | BudgetOk a v => ret (a, v)
        | BudgetFail m => finish false m
        | BudgetRaise => raise
        end) ;;
  _ <- build_tempo_chain j ;;
  emit (EProgress 0) ;;
  (fun s => (Next tt, with_core_path s (Some CoreTmp))) ;;
  proc1 <- popen CORE (core_proc e) ;;
  emit_all (map EProgress (core_progress_values j (p_lines proc1))) ;;
  rc1 <- wait proc1 CoreTmp ;;
  if negb (rc1 =? 0)%Z then finish false MsgCoreFailed
  else if skip_intro j then
    move_core e ;;
    emit (EProgress 100) ;;
    finish true MsgOutputPath
  else
    (fun s => (Next tt, with_intro_path s (Some IntroTmp))) ;;
    proc2 <- popen INTRO (intro_proc e) ;;
    emit_all (map (fun _ => EProgress 95) (p_lines proc2)) ;;
    rc2 <- wait proc2 IntroTmp ;;
    if negb (rc2 =? 0)%Z then finish false MsgIntroFailed
    else
      write_concat_list ;;
      proc3 <- popen CONCAT (concat_proc e) ;;
      emit_all (map (fun _ => EProgress 99) (p_lines proc3)) ;;
      rc3 <- wait proc3 OutputFile ;;
      if negb (rc3 =? 0)%Z then finish false MsgConcatFailed
      else
        emit (EProgress 100) ;;
        finish true MsgOutputPath.

(** Lines 731-734: [if p and os.path.exists(p): os.remove(p)]. *)
Definition remove_if_set (p : option path) (f : list path) : list path :=
  match p with
  | Some q => if exists_ q f then remove_ q f else f
  | None => f
  end.

Definition passlog_exts : list passlog_ext :=
  [ExtNone; Ext0; Ext1; ExtLog; ExtLog0; ExtLog1].

(** Lines 725-738, the [finally] block. *)
Definition finally_ (s : st) : st :=
  let f1 := fold_left (fun f p => remove_if_set p f)
              [core_path s; intro_path s; concat_path s] (fs s) in
  let f2 := fold_left (fun f x => remove_ (PassLog x) f) passlog_exts f1 in
  with_fs s f2.

Definition init_st (fs0 : list path) : st :=
  {| fs := fs0; trace := []; core_path := None; intro_path := None;
     concat_path := None |}.

(** The [try] body with the [except] clause of lines 722-724. *)
Definition run_except (j : job) (e : env) (fs0 : list path) : st :=
  let '(c, s) := run_try j e (init_st fs0) in
  match c with
  | Raised => with_trace s (trace s ++ [EFinished false MsgUnexpected])
  | _ => s
  end.

(** Whether [run] returns: it does unless the [try] body is caught in the
    loop of lines 465-466. *)
Definition returns (j : job) (e : env) (fs0 : list path) : bool :=
  match fst (run_try j e (init_st fs0)) with
  | Hung => false
  | _ => true
  end.

(** [ProcessThread.run], lines 121-738: the [try] body, the [except]
    clause, then the [finally] block.  The result is the state in which
    [run] returns or, when it does not return, the state in which it
    spins. *)
Definition run (j : job) (e : env) (fs0 : list path) : st :=
  if returns j e fs0 then finally_ (run_except j e fs0)
  else run_except j e fs0.

(** *** The signals of [run] in closed form

    [signals j e fs0] is proved below to be the trace of [run j e fs0]. *)

Definition signals_concat (e : env) : list event :=
  match concat_proc e with
  | Some proc3 =>
      ESpawn CONCAT :: map (fun _ => EProgress 99) (p_lines proc3) ++
      (if (p_returncode proc3 =? 0)%Z
       then [EProgress 100; EFinished true MsgOutputPath]
       else [EFinished false MsgConcatFailed])
  | None => [EFinished false MsgUnexpected]
  end.

Definition signals_intro (e : env) : list event :=
  match intro_proc e with
  | Some proc2 =>
      ESpawn INTRO :: map (fun _ => EProgress 95) (p_lines proc2) ++
      (if (p_returncode proc2 =? 0)%Z
       then signals_concat e
       else [EFinished false MsgIntroFailed])
  | None => [EFinished false MsgUnexpected]
  end.

(** Whether [shutil.move] finds the core file and succeeds. *)
Definition core_moved (e : env) (proc1 : proc) (fs0 : list path) : bool :=
  (p_wrote_output proc1 || exists_ CoreTmp fs0) && move_ok e.

Definition signals_after_core (j : job) (e : env) (proc1 : proc)
    (fs0 : list path) : list event :=
  if negb (p_returncode proc1 =? 0)%Z then [EFinished false MsgCoreFailed]
  else if skip_intro j then
    if core_moved e proc1 fs0
    then [EProgress 100; EFinished true MsgOutputPath]
    else [EFinished false MsgFinalizeFailed]
  else signals_intro e.

Definition signals_encode (j : job) (e : env) (fs0 : list path) : list event :=
  EProgress 0 ::
  match core_proc e with
  | Some proc1 =>
      ESpawn CORE ::
      map EProgress (core_progress_values j (p_lines proc1)) ++
      signals_after_core j e proc1 fs0
  | None => [EFinished false MsgUnexpected]
  end.

Definition signals (j : job) (e : env) (fs0 : list path) : list event :=
  if Qeq_dec (speed_factor j) 0 then [EFinished false MsgUnexpected]
  else
    match estimate_bitrate j e with
    | BudgetFail m => [EFinished false m]
    | BudgetRaise => [EFinished false MsgUnexpected]
    | BudgetOk _ _ =>
        match audio_filter_chain (speed_factor j) with
        | Some _ => signals_encode j e fs0
        | None => []
        end
    end.

Definition progress_values (t : list event) : list Z :=
  flat_map (fun ev => match ev with EProgress p => [p] | _ => [] end) t.

Definition succeeded (s : st) : Prop := In (EFinished true MsgOutputPath) (trace s).
Definition failed (s : st) : Prop := exists m, In (EFinished false m) (trace s).

(** ** The specification's wording of the planner, estimator and reporter

    These definitions follow the specification text, not the code; they
    are compared with the definitions above. *)


(** Section 3 as worded: every budget has a video bitrate of at least the
    floor. *)
Definition spec_bitrate_floor (b : budget) : Prop :=
  match b with
  | BudgetOk _ v => (min_video_kbps <= v)%Z
  | _ => True
  end.

(** Section 4.7 as worded: the weight is 0.8 exactly when an INTRO stage
    follows CORE, and the progress is the minimum of the two products. *)
Definition spec_core_weight (j : job) : Q :=
  if skip_intro j then 1 else 8 # 10.

Definition spec_core_progress (j : job) (t : Q) : Q :=
  let w := spec_core_weight j in
  Qmin (100 * w) (t / duration_corrected j * 100 * w).

(** Section 4.4 as worded: the product of the chain is within 1e-3 of the
    requested factor. *)
Definition spec_chain_product (speed : Q) (chain : list Q) : Prop :=
  Qabs (chain_product chain - speed) <= 1 # 1000.

(** The encoder timestamps of a stage, in the order they were read. *)
Definition timestamps (lines : list (option Q)) : list Q :=
  flat_map (fun l => match l with Some t => [t] | None => [] end) lines.

(** Whether a stage was started in a trace. *)
Definition spawned (sg : stage) (t : list event) : Prop := In (ESpawn sg) t.

(** ** Sample jobs and oracles, used to run the definitions *)

Definition quiet_proc (rc : Z) : proc :=
  {| p_lines := [None]; p_returncode := rc; p_wrote_output := true |}.

(** An encoder run that reports the timestamps [ts] and exits with [rc]. *)
Definition timed_proc (ts : list Q) (rc : Z) : proc :=
  {| p_lines := map Some ts; p_returncode := rc; p_wrote_output := true |}.

(** Every external step succeeds; the source has [sz] bytes. *)
Definition env_ok (sz : Z) : env :=
  {| src_bytes := Some sz; probe_bit_rate := None;
     core_proc := Some (quiet_proc 0); intro_proc := Some (quiet_proc 0);
     concat_proc := Some (quiet_proc 0); move_ok := true |}.

(** As [env_ok], with the CORE process replaced. *)
Definition env_core (p : proc) (mv : bool) : env :=
  {| src_bytes := Some 1000000%Z; probe_bit_rate := None;
     core_proc := Some p; intro_proc := Some (quiet_proc 0);
     concat_proc := Some (quiet_proc 0); move_ok := mv |}.

(** Tier 2, 10 s to 40 s of a 120 s source, fades on, 2 s intro. *)
Definition args_intro : args :=
  {| a_start_time := 10; a_end_time := 40; a_speed_factor := 1;
     a_quality_level := 2; a_original_total_duration := 120;
     a_disable_fades := false; a_intro_still_sec := 2;
     a_intro_from_midpoint := true |}.

(** Tier 2, 10 s to 40 s of a 120 s source, fades on, no intro. *)
Definition args_plain : args :=
  {| a_start_time := 10; a_end_time := 40; a_speed_factor := 1;
     a_quality_level := 2; a_original_total_duration := 120;
     a_disable_fades := false; a_intro_still_sec := 0;
     a_intro_from_midpoint := false |}.

(** Tier [q], an exact trim of the first [len] seconds. *)
Definition args_exact (q : Z) (len : Q) : args :=
  {| a_start_time := 0; a_end_time := len; a_speed_factor := 1;
     a_quality_level := q; a_original_total_duration := 3600;
     a_disable_fades := true; a_intro_still_sec := 0;
     a_intro_from_midpoint := false |}.

(** Fades off, but a 2 s intro from the midpoint is requested. *)
Definition args_nofade_intro : args :=
  {| a_start_time := 0; a_end_time := 30; a_speed_factor := 1;
     a_quality_level := 2; a_original_total_duration := 120;
     a_disable_fades := true; a_intro_still_sec := 2;
     a_intro_from_midpoint := true |}.

(** A window that starts past the end of a 10 s source, fades on, 2 s
    intro: the clip itself is empty. *)
Definition args_past_end : args :=
  {| a_start_time := 23 # 2; a_end_time := 12; a_speed_factor := 1;
     a_quality_level := 2; a_original_total_duration := 10;
     a_disable_fades := false; a_intro_still_sec := 2;
     a_intro_from_midpoint := true |}.

(** A positive intro duration without the from-midpoint flag. *)
Definition args_intro_no_midpoint : args :=
  {| a_start_time := 10; a_end_time := 40; a_speed_factor := 1;
     a_quality_level := 2; a_original_total_duration := 120;
     a_disable_fades := false; a_intro_still_sec := 2;
     a_intro_from_midpoint := false |}.

(** A progress sequence that stays within [[lo, hi]] and, when [P] holds,
    never decreases. *)
Definition ramp (P : Prop) (lo hi : Z) (l : list Z) : Prop :=
  Forall (fun x => (lo <= x <= hi)%Z) l /\ (P -> StronglySorted Z.le l).

(** The encoder of the CORE stage reports its timestamps in order. *)
Definition ordered_timestamps (e : env) : Prop :=
  forall proc1, core_proc e = Some proc1 ->
  StronglySorted Qle (timestamps (p_lines proc1)).

(** * Properties *)

(** ** Numeric facts *)

Lemma py_int_nonneg (x : Q) : 0 <= x -> py_int x = Qfloor x.
Proof.
  destruct x as [n d]. unfold Qle, py_int, Qfloor. simpl. intros H.
  apply Z.quot_div_nonneg; lia.
Qed.

Lemma py_int_nonneg_le (x : Q) : 0 <= x -> (0 <= py_int x)%Z.
Proof.
  intros H. rewrite py_int_nonneg by exact H.
  change 0%Z with (Qfloor 0). now apply Qfloor_resp_le.
Qed.

Lemma Qmax_0_nonneg (x : Q) : 0 <= Qmax 0 x.
Proof. apply Q.le_max_l. Qed.

Lemma speed_corrected_one (x : Q) : speed_corrected 1 x = x.
Proof. unfold speed_corrected. destruct (Qeq_dec 1 1) as [_|n]; [reflexivity|]. now destruct n. Qed.

(** ** Quality tiers *)

(** C8. The target size of a job is read from the fixed table: tier 3 gives
    90 MB, tier 2 gives 45, tier 1 gives 25, tier 0 gives 15, and tier 4
    has no fixed target. *)
Theorem target_mb_table (a : args) (j : job) :
  init a = Some j ->
  target_mb j = tier_target_mb (a_quality_level a) /\
  tier_target_mb 3 = Some 90 /\
  tier_target_mb 2 = Some 45 /\
  tier_target_mb 1 = Some 25 /\
  tier_target_mb 0 = Some 15 /\
  tier_target_mb 4 = None.
Proof.
  unfold init. destruct (Qeq_dec (a_speed_factor a) 0); [discriminate|].
  intros H. injection H as <-. repeat split.
Qed.

Lemma target_mb_table_witness :
  target_mb (init_attrs (args_exact 3 30)) = Some 90 /\
  target_mb (init_attrs (args_exact 4 30)) = None.
Proof.
  split.
  - apply (target_mb_table (args_exact 3 30) (init_attrs (args_exact 3 30))
             eq_refl).
  - apply (target_mb_table (args_exact 4 30) (init_attrs (args_exact 4 30))
             eq_refl).
Defined.

(** ** Trim window *)








(** ** Audio tempo chain *)

Lemma py_round_near (y : Q) : Qabs (inject_Z (py_round y) - y) <= 1 # 2.
Proof.
  unfold py_round.
  pose proof (Qfloor_le y) as Hl. pose proof (Qlt_floor y) as Hu.
  rewrite inject_Z_plus in Hu. change (inject_Z 1) with 1 in Hu.
  apply Qabs_Qle_condition.
  destruct (Qcompare (y - inject_Z (Qfloor y)) (1 # 2)) eqn:E.
  - apply Qeq_alt in E.
    destruct (Z.even (Qfloor y)); [|rewrite inject_Z_plus; change (inject_Z 1) with 1];
      split; lra.
  - apply Qlt_alt in E. split; lra.
  - apply Qgt_alt in E. rewrite inject_Z_plus. change (inject_Z 1) with 1.
    split; lra.
Qed.

Lemma round3_near (x : Q) : Qabs (round3 x - x) <= 1 # 2000.
Proof.
  unfold round3. pose proof (py_round_near (x * 1000)) as H.
  apply Qabs_Qle_condition in H. apply Qabs_Qle_condition.
  set (R := inject_Z (py_round (x * 1000))) in *.
  assert (E : R / 1000 == R * (1 # 1000)) by (unfold Qdiv; reflexivity).
  rewrite E. split; lra.
Qed.

Lemma clamp_factor_range (f : Q) : 1 # 2 <= clamp_factor f <= 2.
Proof.
  unfold clamp_factor. split.
  - apply Q.min_glb; [discriminate|apply Q.le_max_l].
  - apply Q.le_min_l.
Qed.

Lemma clamp_factor_near (f : Q) :
  1 # 2 <= f <= 2 -> Qabs (clamp_factor f - f) <= 1 # 2000.
Proof.
  intros [Hl Hu]. pose proof (round3_near f) as H.
  apply Qabs_Qle_condition in H. apply Qabs_Qle_condition.
  unfold clamp_factor.
  destruct (Q.max_spec (1 # 2) (round3 f)) as [[B E1]|[B E1]];
  destruct (Q.min_spec 2 (Qmax (1 # 2) (round3 f))) as [[A E2]|[A E2]];
    rewrite E2; try rewrite E1; try rewrite E1 in A; split; lra.
Qed.


Lemma chain_product_nil : chain_product [] = 1.
Proof. reflexivity. Qed.

Lemma chain_product_cons (x : Q) (l : list Q) :
  chain_product (x :: l) = x * chain_product l.
Proof. reflexivity. Qed.

Lemma chain_product_app (l1 l2 : list Q) :
  chain_product (l1 ++ l2) == chain_product l1 * chain_product l2.
Proof.
  induction l1 as [|x l1 IH].
  - rewrite chain_product_nil. cbn [app]. ring.
  - cbn [app]. rewrite !chain_product_cons, IH. ring.
Qed.

Lemma chain_product_repeat_2 (k : nat) : 1 <= chain_product (repeat 2 k).
Proof.
  induction k as [|k IH]; cbn [repeat].
  - discriminate.
  - rewrite chain_product_cons. lra.
Qed.

Lemma chain_product_repeat_half (k : nat) :
  0 < chain_product (repeat (1 # 2) k) <= 1.
Proof.
  induction k as [|k IH]; cbn [repeat].
  - split; [reflexivity|discriminate].
  - rewrite chain_product_cons. destruct IH. split; lra.
Qed.

Lemma pow2_succ (n : nat) :
  inject_Z (2 ^ Z.of_nat (S n)) == 2 * inject_Z (2 ^ Z.of_nat n).
Proof.
  rewrite Nat2Z.inj_succ, Z.pow_succ_r by apply Nat2Z.is_nonneg.
  rewrite inject_Z_mult. reflexivity.
Qed.

Lemma halve_loop_exits (fuel : nat) :
  forall s acc, s <= 2 * inject_Z (2 ^ Z.of_nat fuel) ->
  halve_loop fuel s acc <> None.
Proof.
  induction fuel as [|f IH]; intros s acc H.
  - simpl. destruct (Qlt_le_dec 2 s) as [l|_]; [|discriminate].
    exfalso. change (inject_Z (2 ^ Z.of_nat 0)) with 1 in H. lra.
  - simpl. destruct (Qlt_le_dec 2 s) as [_|_]; [|discriminate].
    apply IH. rewrite pow2_succ in H.
    assert (E : s / 2 == s * (1 # 2)) by reflexivity. rewrite E. lra.
Qed.

Lemma double_loop_exits (fuel : nat) :
  forall s acc, 1 # 2 <= s * inject_Z (2 ^ Z.of_nat fuel) ->
  double_loop fuel s acc <> None.
Proof.
  induction fuel as [|f IH]; intros s acc H.
  - simpl. destruct (Qlt_le_dec s (1 # 2)) as [l|_]; [|discriminate].
    exfalso. change (inject_Z (2 ^ Z.of_nat 0)) with 1 in H. lra.
  - simpl. destruct (Qlt_le_dec s (1 # 2)) as [_|_]; [|discriminate].
    apply IH. rewrite pow2_succ in H.
    assert (E : s / (1 # 2) == s * 2) by (unfold Qdiv; reflexivity).
    rewrite E. lra.
Qed.

Lemma halve_loop_spec (fuel : nat) :
  forall s acc r ch, halve_loop fuel s acc = Some (r, ch) ->
  exists k, ch = acc ++ repeat 2 k /\
            chain_product (repeat 2 k) * r == s /\
            r <= 2 /\ (k = 0%nat \/ 1 < r).
Proof.
  induction fuel as [|f IH]; intros s acc r ch; simpl;
    destruct (Qlt_le_dec 2 s) as [l|l]; try discriminate.
  - intros H. injection H as <- <-. exists 0%nat.
    rewrite app_nil_r. cbn [repeat]. rewrite chain_product_nil.
    split; [reflexivity|]. split; [ring|]. split; [exact l|now left].
  - intros H. destruct (IH _ _ _ _ H) as (k & -> & Hp & Hr & Hk).
    exists (S k). rewrite <- app_assoc. split; [reflexivity|].
    assert (E : s / 2 == s * (1 # 2)) by reflexivity. rewrite E in Hp.
    split; [|split; [exact Hr|right]].
    + cbn [repeat]. rewrite chain_product_cons. lra.
    + destruct Hk as [->|Hk]; [|exact Hk].
      cbn [repeat] in Hp. rewrite chain_product_nil in Hp. lra.
  - intros H. injection H as <- <-. exists 0%nat.
    rewrite app_nil_r. cbn [repeat]. rewrite chain_product_nil.
    split; [reflexivity|]. split; [ring|]. split; [exact l|now left].
Qed.

Lemma double_loop_spec (fuel : nat) :
  forall s acc r ch, double_loop fuel s acc = Some (r, ch) ->
  exists k, ch = acc ++ repeat (1 # 2) k /\
            chain_product (repeat (1 # 2) k) * r == s /\
            1 # 2 <= r /\ (k = 0%nat \/ r < 1).
Proof.
  induction fuel as [|f IH]; intros s acc r ch; simpl;
    destruct (Qlt_le_dec s (1 # 2)) as [l|l]; try discriminate.
  - intros H. injection H as <- <-. exists 0%nat.
    rewrite app_nil_r. cbn [repeat]. rewrite chain_product_nil.
    split; [reflexivity|]. split; [ring|]. split; [exact l|now left].
  - intros H. destruct (IH _ _ _ _ H) as (k & -> & Hp & Hr & Hk).
    exists (S k). rewrite <- app_assoc. split; [reflexivity|].
    assert (E : s / (1 # 2) == s * 2) by (unfold Qdiv; reflexivity).
    rewrite E in Hp.
    split; [|split; [exact Hr|right]].
    + cbn [repeat]. rewrite chain_product_cons. lra.
    + destruct Hk as [->|Hk]; [|exact Hk].
      cbn [repeat] in Hp. rewrite chain_product_nil in Hp. lra.
  - intros H. injection H as <- <-. exists 0%nat.
    rewrite app_nil_r. cbn [repeat]. rewrite chain_product_nil.
    split; [reflexivity|]. split; [ring|]. split; [exact l|now left].
Qed.

Lemma finish_chain_repeat (c : Q) (k : nat) (r : Q) :
  keep_factor c = true -> clamp_factor c = c ->
  finish_chain (repeat c k ++ [r])
  = repeat c k ++ (if keep_factor r then [clamp_factor r] else []).
Proof.
  intros Hk Hc. unfold finish_chain. rewrite filter_app, map_app. f_equal.
  - induction k as [|k IH]; cbn [repeat filter map]; [reflexivity|].
    rewrite Hk. cbn [map]. rewrite Hc, IH. reflexivity.
  - cbn [filter]. destruct (keep_factor r); reflexivity.
Qed.

Lemma finish_chain_range (chain : list Q) :
  Forall (fun f => 1 # 2 <= f <= 2) (finish_chain chain).
Proof.
  unfold finish_chain. apply Forall_map, Forall_forall.
  intros f _. apply clamp_factor_range.
Qed.

(** The last factor, kept and rounded or dropped, stays within 1e-3 of the
    remainder it stands for. *)
Lemma last_factor_near (r : Q) :
  1 # 2 <= r <= 2 ->
  Qabs (chain_product (if keep_factor r then [clamp_factor r] else []) - r)
  <= 1 # 1000.
Proof.
  intros Hr. unfold keep_factor.
  destruct (Qlt_le_dec (1 # 1000) (Qabs (r - 1))) as [_|l].
  - rewrite chain_product_cons, chain_product_nil.
    pose proof (clamp_factor_near r Hr) as H.
    apply Qabs_Qle_condition in H. apply Qabs_Qle_condition. split; lra.
  - rewrite chain_product_nil. apply Qabs_Qle_condition in l.
    apply Qabs_Qle_condition. split; lra.
Qed.

Lemma scaled_error (P a b d : Q) :
  0 <= P -> Qabs (a - b) <= d -> Qabs (P * a - P * b) <= P * d.
Proof.
  intros HP H. apply Qabs_Qle_condition in H. destruct H as [H1 H2].
  apply Qabs_Qle_condition. split; nra.
Qed.

Lemma pow2_log2_up_ge (a : Z) : (a <= 2 ^ Z.log2_up a)%Z.
Proof.
  destruct (Z_lt_le_dec 1 a) as [l|l].
  - apply Z.log2_up_spec. exact l.
  - rewrite Z.log2_up_eqn0 by exact l. simpl. lia.
Qed.

Lemma tempo_fuel_bound (speed : Q) :
  Qmax speed (/ speed) <= inject_Z (2 ^ Z.of_nat (tempo_fuel speed)).
Proof.
  unfold tempo_fuel. rewrite Z2Nat.id by apply Z.log2_up_nonneg.
  eapply Qle_trans; [apply Qle_ceiling|].
  rewrite <- Zle_Qle. apply pow2_log2_up_ge.
Qed.

Lemma raw_chain_exits (speed : Q) :
  0 < speed -> raw_chain (tempo_fuel speed) speed <> None.
Proof.
  intros Hs. unfold raw_chain.
  pose proof (tempo_fuel_bound speed) as Hb.
  set (P := inject_Z (2 ^ Z.of_nat (tempo_fuel speed))) in *.
  destruct (Qlt_le_dec speed 1) as [l|l].
  - assert (H : double_loop (tempo_fuel speed) speed [] <> None).
    { apply double_loop_exits. fold P.
      assert (Hi : / speed <= P) by (eapply Qle_trans; [apply Q.le_max_r|exact Hb]).
      assert (E : speed * / speed == 1) by (apply Qmult_inv_r; lra).
      assert (speed * / speed <= speed * P) by (apply Qmult_le_l; assumption).
      lra. }
    destruct (double_loop (tempo_fuel speed) speed []) as [[s ch]|];
      [discriminate|now destruct H].
  - assert (H : halve_loop (tempo_fuel speed) speed [] <> None).
    { apply halve_loop_exits. fold P.
      assert (speed <= P) by (eapply Qle_trans; [apply Q.le_max_l|exact Hb]).
      lra. }
    destruct (halve_loop (tempo_fuel speed) speed []) as [[s ch]|];
      [discriminate|now destruct H].
Qed.

(** What the chain is made of: a run of equal factors [c] whose product
    with the remainder [r] is the speed, then [r] rounded or dropped. *)
Lemma raw_chain_shape (fuel : nat) (speed : Q) (chain : list Q) :
  0 < speed -> raw_chain fuel speed = Some chain ->
  exists (c : Q) (k : nat) (r : Q),
    chain = repeat c k ++ [r] /\
    keep_factor c = true /\ clamp_factor c = c /\
    chain_product (repeat c k) * r == speed /\
    0 < chain_product (repeat c k) /\
    1 # 2 <= r <= 2 /\
    (speed <= 2 -> chain_product (repeat c k) <= 1) /\
    (2 < speed -> chain_product (repeat c k) <= speed).
Proof.
  intros Hs. unfold raw_chain.
  destruct (Qlt_le_dec speed 1) as [l|l].
  - destruct (double_loop fuel speed []) as [[r ch]|] eqn:E; [|discriminate].
    intros H. injection H as <-.
    destruct (double_loop_spec _ _ _ _ _ E) as (k & -> & Hp & Hr & Hk).
    exists (1 # 2), k, r. cbn [app].
    pose proof (chain_product_repeat_half k) as [P0 P1].
    repeat split; try assumption.
    + destruct Hk as [->|Hk]; [|lra].
      cbn [repeat] in Hp. rewrite chain_product_nil in Hp. lra.
    + intros _. exact P1.
    + intros H2. lra.
  - destruct (halve_loop fuel speed []) as [[r ch]|] eqn:E; [|discriminate].
    intros H. injection H as <-.
    destruct (halve_loop_spec _ _ _ _ _ E) as (k & -> & Hp & Hr & Hk).
    exists 2, k, r. cbn [app].
    pose proof (chain_product_repeat_2 k) as P1.
    assert (R1 : 1 <= r).
    { destruct Hk as [->|Hk]; [|lra].
      cbn [repeat] in Hp. rewrite chain_product_nil in Hp. lra. }
    repeat split; try assumption; try lra.
    + intros H2. destruct k as [|k].
      * cbn [repeat]. rewrite chain_product_nil. lra.
      * exfalso. destruct Hk as [Hk|Hk]; [discriminate|].
        cbn [repeat] in Hp. rewrite chain_product_cons in Hp.
        pose proof (chain_product_repeat_2 k). nra.
    + intros _. nra.
Qed.

(** C6, as the code has it.  A speed of 1.0 gives no tempo operation.  For
    every other speed above 0 the loop exits, every factor of the chain
    lies in [0.5, 2.0], and the product of the chain is within 1e-3 of the
    speed when the speed is at most 2.0, and within one thousandth of the
    speed itself when it is larger. *)
Theorem atempo_chain_bounds (speed : Q) :
  (speed == 1 -> audio_filter_chain speed = Some []) /\
  (0 < speed -> ~ speed == 1 ->
   exists chain,
     audio_filter_chain speed = Some chain /\
     Forall (fun f => 1 # 2 <= f <= 2) chain /\
     (speed <= 2 -> Qabs (chain_product chain - speed) <= 1 # 1000) /\
     (2 < speed -> Qabs (chain_product chain - speed) <= speed * (1 # 1000))).
Proof.
  unfold audio_filter_chain, atempo_chain. split.
  - intros E. destruct (Qeq_dec speed 1) as [_|n]; [reflexivity|now destruct n].
  - intros Hs Hn. destruct (Qeq_dec speed 1) as [E|_]; [now destruct Hn|].
    pose proof (raw_chain_exits speed Hs) as Hx.
    destruct (raw_chain (tempo_fuel speed) speed) as [raw|] eqn:E;
      [|now destruct Hx].
    exists (finish_chain raw). split; [reflexivity|].
    split; [apply finish_chain_range|].
    destruct (raw_chain_shape _ _ _ Hs E)
      as (c & k & r & -> & Hk & Hc & Hp & P0 & Hr & S1 & S2).
    rewrite (finish_chain_repeat c k r Hk Hc).
    pose proof (last_factor_near r Hr) as Hl.
    set (last := chain_product (if keep_factor r then [clamp_factor r] else []))
      in *.
    set (P := chain_product (repeat c k)) in *.
    assert (Hd : Qabs (P * last - P * r) <= P * (1 # 1000))
      by (apply scaled_error; [lra|exact Hl]).
    assert (Eq : chain_product
                   (repeat c k ++ (if keep_factor r then [clamp_factor r] else []))
                 - speed == P * last - P * r).
    { rewrite chain_product_app. fold P. fold last. rewrite <- Hp. ring. }
    rewrite Eq. split; intros H.
    + specialize (S1 H). lra.
    + specialize (S2 H). lra.
Qed.

Lemma atempo_chain_bounds_witness :
  exists chain,
    audio_filter_chain 4 = Some chain /\
    Forall (fun f => 1 # 2 <= f <= 2) chain.
Proof.
  destruct (proj2 (atempo_chain_bounds 4)) as (chain & H1 & H2 & _).
  - reflexivity.
  - discriminate.
  - exists chain. split; [exact H1|exact H2].
Defined.

(** A speed of 15.003 is factored into 2, 2, 2 and 1.875375; the last
    factor is rounded to 1.875 and the product is 15, off by 3e-3. *)
Lemma atempo_chain_product_counterexample :
  audio_filter_chain (15003 # 1000) = Some [2; 2; 2; 1875 # 1000] /\
  ~ spec_chain_product (15003 # 1000) [2; 2; 2; 1875 # 1000].
Proof.
  split; [vm_compute; reflexivity|]. vm_compute. intros H. apply H. reflexivity.
Qed.

(** ** The pipeline *)

Ltac run_unfold :=
  unfold run, returns, run_except, run_try, bind, divide_by_speed,
    build_tempo_chain, popen, emit, emit_all, finish, raise, hang, ret, wait,
    move_core, write_concat_list.

Lemma exists_create (p : path) (f : list path) : exists_ p (create_ p f) = true.
Proof.
  unfold create_. destruct (exists_ p f) eqn:E; [exact E|].
  unfold exists_. destruct (in_dec path_eq_dec p (p :: f)) as [_|n];
    [reflexivity|]. exfalso. apply n. now left.
Qed.

Lemma trace_finally (s : st) : trace (finally_ s) = trace s.
Proof. reflexivity. Qed.

Lemma trace_run (j : job) (e : env) (fs0 : list path) :
  trace (run j e fs0) = trace (run_except j e fs0).
Proof. unfold run. destruct (returns j e fs0); reflexivity. Qed.

(** For a speed above 0 the loops of lines 461-466 exit. *)
Lemma audio_filter_chain_exits (speed : Q) :
  0 < speed -> audio_filter_chain speed <> None.
Proof.
  intros Hs. unfold audio_filter_chain, atempo_chain.
  destruct (Qeq_dec speed 1); [discriminate|].
  pose proof (raw_chain_exits speed Hs) as H.
  destruct (raw_chain (tempo_fuel speed) speed); [discriminate|now destruct H].
Qed.

Lemma double_loop_spins (fuel : nat) :
  forall s acc, s <= 0 -> double_loop fuel s acc = None.
Proof.
  induction fuel as [|f IH]; intros s acc H; simpl;
    (destruct (Qlt_le_dec s (1 # 2)) as [_|l]; [|exfalso; lra]).
  - reflexivity.
  - apply IH. assert (E : s / (1 # 2) == s * 2) by (unfold Qdiv; reflexivity).
    rewrite E. lra.
Qed.

(** For a speed of 0 or below the loop of lines 465-466 never exits,
    whatever the number of rounds it is given. *)
Lemma atempo_chain_spins (speed : Q) :
  speed <= 0 -> forall fuel, atempo_chain fuel speed = None.
Proof.
  intros Hs fuel. unfold atempo_chain, raw_chain.
  destruct (Qeq_dec speed 1) as [E|_]; [exfalso; lra|].
  destruct (Qlt_le_dec speed 1) as [_|l]; [|exfalso; lra].
  now rewrite double_loop_spins.
Qed.

(** [run] returns for every job with a speed above 0. *)
Lemma run_returns (j : job) (e : env) (fs0 : list path) :
  0 < speed_factor j -> returns j e fs0 = true.
Proof.
  intros Hs. pose proof (audio_filter_chain_exits _ Hs) as Hc. run_unfold.
  destruct (Qeq_dec (speed_factor j) 0); [reflexivity|]. cbn.
  destruct (estimate_bitrate j e); cbn; [|reflexivity..].
  destruct (audio_filter_chain (speed_factor j)) as [ch|]; [|now destruct Hc].
  cbn. destruct (core_proc e) as [p1|]; cbn; [|reflexivity].
  destruct (p_returncode p1 =? 0)%Z; cbn; [|reflexivity].
  destruct (skip_intro j); cbn.
  - match goal with
    | |- context [if ?b then (Next tt, _) else _] => destruct b; reflexivity
    end.
  - destruct (intro_proc e) as [p2|]; cbn; [|reflexivity].
    destruct (p_returncode p2 =? 0)%Z; cbn; [|reflexivity].
    destruct (concat_proc e) as [p3|]; cbn; [|reflexivity].
    destruct (p_returncode p3 =? 0)%Z; reflexivity.
Qed.

(** The trace of [run] is [signals]. *)
Lemma run_signals (j : job) (e : env) (fs0 : list path) :
  trace (run j e fs0) = signals j e fs0.
Proof.
  rewrite trace_run. unfold signals, signals_encode, signals_after_core.
  run_unfold.
  destruct (Qeq_dec (speed_factor j) 0); [reflexivity|]. cbn.
  destruct (estimate_bitrate j e) as [ak vk|m|]; cbn; [|reflexivity..].
  destruct (audio_filter_chain (speed_factor j)) as [ch|]; cbn; [|reflexivity].
  destruct (core_proc e) as [p1|]; cbn; [|reflexivity].
  destruct (p_returncode p1 =? 0)%Z; cbn.
  2: { destruct (p_wrote_output p1); reflexivity. }
  destruct (skip_intro j); cbn.
  - unfold core_moved.
    destruct (p_wrote_output p1); cbn.
    + rewrite exists_create. cbn.
      destruct (move_ok e); cbn; rewrite <- ?app_assoc; reflexivity.
    + destruct (exists_ CoreTmp fs0 && move_ok e); cbn;
        rewrite <- ?app_assoc; reflexivity.
  - unfold signals_intro, signals_concat.
    destruct (intro_proc e) as [p2|]; cbn.
    2: { destruct (p_wrote_output p1); reflexivity. }
    destruct (p_returncode p2 =? 0)%Z; cbn.
    2: { destruct (p_wrote_output p1), (p_wrote_output p2); cbn;
         rewrite <- ?app_assoc; reflexivity. }
    destruct (concat_proc e) as [p3|]; cbn.
    2: { destruct (p_wrote_output p1), (p_wrote_output p2); cbn;
         rewrite <- ?app_assoc; reflexivity. }
    destruct (p_returncode p3 =? 0)%Z; cbn;
      destruct (p_wrote_output p1), (p_wrote_output p2), (p_wrote_output p3);
      cbn; rewrite <- ?app_assoc; cbn; rewrite <- ?app_assoc; reflexivity.
Qed.

Ltac in_events H :=
  repeat (cbn [In] in H;
          match type of H with
          | In _ (_ ++ _) => apply in_app_or in H; destruct H as [H|H]
          | In _ (map _ _) => apply in_map_iff in H; destruct H as (? & H & _)
          | _ \/ _ => destruct H as [H|H]
          | False => destruct H
          | _ = _ => discriminate H
          end).

Ltac find_in :=
  cbn [In]; rewrite ?in_app_iff; cbn [In];
  solve [reflexivity | left; find_in | right; find_in].

Ltac signals_cases j e fs0 :=
  unfold signals, signals_encode, signals_after_core, signals_intro,
    signals_concat;
  destruct (Qeq_dec (speed_factor j) 0);
  [|destruct (estimate_bitrate j e) as [? ?|?|];
    [destruct (audio_filter_chain (speed_factor j));
     [destruct (core_proc e) as [?p1|] eqn:?H1;
      [destruct (p_returncode p1 =? 0)%Z; cbn [negb];
       [destruct (skip_intro j);
        [destruct (core_moved e p1 fs0)
        |destruct (intro_proc e) as [?p2|];
         [destruct (p_returncode p2 =? 0)%Z;
          [destruct (concat_proc e) as [?p3|];
           [destruct (p_returncode p3 =? 0)%Z| ]
          | ]
         | ]
        ]
       | ]
      | ]
     | ]
    | | ]].

Lemma init_some (a : args) (j : job) :
  init a = Some j -> j = init_attrs a /\ ~ speed_factor j == 0.
Proof.
  unfold init. destruct (Qeq_dec (a_speed_factor a) 0) as [_|n]; [discriminate|].
  intros H. injection H as <-. split; [reflexivity|exact n].
Qed.

(** ** Bitrate budget *)

Lemma intro_len_for_size_nonneg (j : job) : 0 <= intro_len_for_size j.
Proof.
  unfold intro_len_for_size.
  destruct (negb (disable_fades j) && intro_from_midpoint j &&
            (if Qlt_le_dec 0 (intro_still_sec j) then true else false)).
  - apply Qmax_0_nonneg.
  - apply Qle_refl.
Qed.

Lemma duration_corrected_nonneg (j : job) : 0 <= duration_corrected j.
Proof. apply Qmax_0_nonneg. Qed.

Lemma effective_duration_nonneg (j : job) : 0 <= effective_duration j.
Proof.
  unfold effective_duration.
  pose proof (intro_len_for_size_nonneg j).
  pose proof (duration_corrected_nonneg j). lra.
Qed.

Lemma quotient_nonneg (a b : Q) : 0 <= a -> 0 < b -> 0 <= a / b.
Proof.
  intros Ha Hb. apply Qle_shift_div_l; [exact Hb|]. lra.
Qed.

Lemma fixed_mb_budget_nonneg (c : bool) (tmb : option Q) (k : Z) (eff : Q) a v :
  0 <= eff -> fixed_mb_budget c tmb k eff = BudgetOk a v -> (0 <= v)%Z.
Proof.
  intros He. unfold fixed_mb_budget.
  destruct (c && _); [discriminate|].
  destruct (Qlt_le_dec _ 0) as [_|Hv]; [discriminate|].
  destruct (Qeq_dec (1024 * eff) 0) as [_|Hz]; [discriminate|].
  intros H. injection H as _ <-.
  apply py_int_nonneg_le, quotient_nonneg; [exact Hv|].
  assert (~ eff == 0) by (intros E; apply Hz; rewrite E; reflexivity).
  lra.
Qed.

Lemma match_source_budget_floor (sz : Z) (probed : option Z) (eff : Q) a v :
  match_source_budget sz probed eff = BudgetOk a v -> (min_video_kbps <= v)%Z.
Proof.
  unfold match_source_budget.
  destruct (Qlt_le_dec 0 eff); [|discriminate].
  destruct (Qlt_le_dec 0 _); intros H; injection H as _ <-.
  - apply Z.le_max_l.
  - apply Z.le_refl.
Qed.

Lemma fixed_mb_budget_too_short (tmb : option Q) (k : Z) (eff : Q) :
  fixed_target_bits tmb < inject_Z k * 1024 * eff -> 0 < eff ->
  fixed_mb_budget true tmb k eff = BudgetFail MsgTooShort.
Proof.
  intros H He. unfold fixed_mb_budget.
  destruct (Qlt_le_dec 0 eff) as [_|l]; [|exfalso; apply (Qlt_not_le _ _ He l)].
  cbn [andb].
  destruct (Qlt_le_dec _ 0) as [_|l]; [reflexivity|]. exfalso. lra.
Qed.

Lemma tier_target_bits_nonneg (q : Z) : 0 <= fixed_target_bits (tier_target_mb q).
Proof.
  unfold tier_target_mb.
  destruct (4 <=? q)%Z; [vm_compute; discriminate|].
  destruct (q =? 3)%Z; [vm_compute; discriminate|].
  destruct (q =? 2)%Z; [vm_compute; discriminate|].
  destruct (q =? 1)%Z; vm_compute; discriminate.
Qed.

Lemma run_budget_fail (j : job) (e : env) (fs0 : list path) (m : result_msg) :
  ~ speed_factor j == 0 ->
  estimate_bitrate j e = BudgetFail m ->
  trace (run j e fs0) = [EFinished false m].
Proof.
  intros Hs H. rewrite run_signals. unfold signals.
  destruct (Qeq_dec (speed_factor j) 0) as [E|_]; [now destruct Hs|].
  rewrite H. reflexivity.
Qed.

Lemma run_budget_raise (j : job) (e : env) (fs0 : list path) :
  estimate_bitrate j e = BudgetRaise ->
  trace (run j e fs0) = [EFinished false MsgUnexpected].
Proof.
  intros H. rewrite run_signals. unfold signals.
  destruct (Qeq_dec (speed_factor j) 0) as [E|_]; [reflexivity|].
  rewrite H. reflexivity.
Qed.

(** C3, as the code has it.  In size-matching mode with a readable source
    size the video bitrate is at least 300 kbps; in every mode a bitrate
    that is produced is not negative; and in tiered mode a clip whose audio
    bits alone exceed the target size ends the job with the failure
    "Video duration is too short for the target file size." and nothing
    else is emitted. *)
Theorem video_bitrate_bounds (a : args) (j : job) (e : env) :
  init a = Some j ->
  (forall sz ak v, keep_highest_res j = true -> src_bytes e = Some sz ->
     estimate_bitrate j e = BudgetOk ak v -> (min_video_kbps <= v)%Z) /\
  (forall ak v, estimate_bitrate j e = BudgetOk ak v -> (0 <= v)%Z) /\
  (forall fs0, keep_highest_res j = false ->
     fixed_target_bits (target_mb j)
       < inject_Z AUDIO_KBPS * 1024 * effective_duration j ->
     estimate_bitrate j e = BudgetFail MsgTooShort /\
     trace (run j e fs0) = [EFinished false MsgTooShort]).
Proof.
  intros Hi. apply init_some in Hi. destruct Hi as [-> Hs].
  split; [|split].
  - intros sz ak v Hk Hsz. unfold estimate_bitrate. rewrite Hk, Hsz.
    apply match_source_budget_floor.
  - intros ak v. unfold estimate_bitrate.
    destruct (keep_highest_res (init_attrs a)).
    + destruct (src_bytes e).
      * intros H. apply match_source_budget_floor in H.
        unfold min_video_kbps in H. lia.
      * apply fixed_mb_budget_nonneg, effective_duration_nonneg.
    + apply fixed_mb_budget_nonneg, effective_duration_nonneg.
  - intros fs0 Hk H.
    assert (E : estimate_bitrate (init_attrs a) e = BudgetFail MsgTooShort).
    { unfold estimate_bitrate. rewrite Hk.
      apply fixed_mb_budget_too_short; [exact H|].
      pose proof (tier_target_bits_nonneg (a_quality_level a)) as Hn.
      change (tier_target_mb (a_quality_level a))
        with (target_mb (init_attrs a)) in Hn.
      destruct (Qlt_le_dec 0 (effective_duration (init_attrs a))) as [l|l];
        [exact l|].
      pose proof (effective_duration_nonneg (init_attrs a)).
      assert (Z0 : effective_duration (init_attrs a) == 0) by lra.
      rewrite Z0 in H. exfalso. lra. }
    split; [exact E|]. now apply run_budget_fail.
Qed.

Lemma video_bitrate_bounds_witness :
  (min_video_kbps <= 300)%Z /\
  estimate_bitrate (init_attrs (args_exact 0 1000)) (env_ok 1000000)
    = BudgetFail MsgTooShort.
Proof.
  destruct (video_bitrate_bounds (args_exact 4 30) (init_attrs (args_exact 4 30))
              (env_ok 1000000) eq_refl) as (H1 & _ & _).
  destruct (video_bitrate_bounds (args_exact 0 1000)
              (init_attrs (args_exact 0 1000)) (env_ok 1000000) eq_refl)
    as (_ & _ & H3).
  split.
  - apply (H1 1000000%Z 128%Z 300%Z); reflexivity.
  - apply (H3 []); reflexivity.
Defined.

(** The floor is not applied in tiered mode: 900 s at tier 0 (15 MB) get a
    video bitrate of 8 kbps. *)
Lemma video_bitrate_floor_counterexample :
  exists j, init (args_exact 0 900) = Some j /\
            estimate_bitrate j (env_ok 1000000) = BudgetOk 128 8 /\
            ~ spec_bitrate_floor (estimate_bitrate j (env_ok 1000000)).
Proof.
  eexists. split; [reflexivity|]. split; [reflexivity|].
  vm_compute. intros H. apply H. reflexivity.
Qed.

(** C4, as the code has it.  When the effective duration (the clip
    duration, clamped at 0 from below, plus the intro length counted for
    the size) is zero, in tiered mode or in size-matching mode with a
    readable source size, the job ends with the failure "Selected video
    duration is zero." and emits nothing else, so no encoder is started;
    a non-positive clip duration becomes 0, not a positive value. *)
Theorem zero_duration_is_terminal (a : args) (j : job) (e : env)
    (fs0 : list path) :
  init a = Some j ->
  effective_duration j <= 0 ->
  keep_highest_res j = false \/ src_bytes e <> None ->
  trace (run j e fs0) = [EFinished false MsgDurationZero] /\
  returns j e fs0 = true /\
  ~ spawned CORE (trace (run j e fs0)) /\
  (output_clip_duration (plan_trim j) <= 0 -> duration_corrected j == 0).
Proof.
  intros Hi Hz Hm. apply init_some in Hi. destruct Hi as [_ Hs].
  assert (E : estimate_bitrate j e = BudgetFail MsgDurationZero).
  { unfold estimate_bitrate.
    destruct Hm as [Hk|Hsz].
    - rewrite Hk. unfold fixed_mb_budget.
      destruct (Qlt_le_dec 0 (effective_duration j)) as [l|_]; [|reflexivity].
      exfalso. apply (Qlt_not_le _ _ l Hz).
    - destruct (keep_highest_res j).
      + destruct (src_bytes e) as [sz|]; [|now destruct Hsz].
        unfold match_source_budget.
        destruct (Qlt_le_dec 0 (effective_duration j)) as [l|_]; [|reflexivity].
        exfalso. apply (Qlt_not_le _ _ l Hz).
      + unfold fixed_mb_budget.
        destruct (Qlt_le_dec 0 (effective_duration j)) as [l|_]; [|reflexivity].
        exfalso. apply (Qlt_not_le _ _ l Hz). }
  rewrite (run_budget_fail j e fs0 _ Hs E). split; [reflexivity|]. split; [|split].
  - run_unfold.
    destruct (Qeq_dec (speed_factor j) 0) as [_|_]; [reflexivity|].
    cbn. rewrite E. reflexivity.
  - unfold spawned. intros [H|[]]. discriminate H.
  - intros H. unfold duration_corrected. rewrite Q.max_l by exact H. reflexivity.
Qed.

Lemma zero_duration_is_terminal_witness :
  trace (run (init_attrs (args_exact 2 0)) (env_ok 1000000) [])
  = [EFinished false MsgDurationZero].
Proof.
  apply (zero_duration_is_terminal (args_exact 2 0)
           (init_attrs (args_exact 2 0)) (env_ok 1000000) []).
  - reflexivity.
  - vm_compute. discriminate.
  - left. reflexivity.
Defined.

(** With fades on and an intro requested, a window that starts past the end
    of the source has an empty clip, and the CORE encoder is started all
    the same: the intro length keeps the effective duration positive. *)
Lemma zero_duration_counterexample :
  exists j, init args_past_end = Some j /\
            output_clip_duration (plan_trim j) <= 0 /\
            spawned CORE (trace (run j (env_ok 1000000) [])) /\
            succeeded (run j (env_ok 1000000) []).
Proof.
  eexists. split; [reflexivity|].
  split; [vm_compute; discriminate|]. split; vm_compute; tauto.
Qed.

(** ** Temporary files and stages *)

Lemma in_create (x p : path) (f : list path) :
  In x (create_ p f) <-> x = p \/ In x f.
Proof.
  unfold create_, exists_.
  destruct (in_dec path_eq_dec p f) as [i|n]; cbn.
  - split; [now right|]. intros [->|H]; assumption.
  - split; intros [H|H]; auto.
Qed.

Lemma in_remove_ (x p : path) (f : list path) :
  In x (remove path_eq_dec p f) <-> In x f /\ x <> p.
Proof.
  split.
  - apply in_remove.
  - intros [H1 H2]. now apply in_in_remove.
Qed.

Lemma in_remove_if_set (x : path) (p : option path) (f : list path) :
  In x (remove_if_set p f) <-> In x f /\ p <> Some x.
Proof.
  unfold remove_if_set. destruct p as [q|].
  - unfold exists_. destruct (in_dec path_eq_dec q f) as [i|n].
    + unfold remove_. rewrite in_remove_.
      split; intros [H1 H2]; split; try assumption.
      * intros E. injection E as ->. now apply H2.
      * intros ->. now apply H2.
    + split; [|tauto]. intros H. split; [exact H|].
      intros E. injection E as ->. now apply n.
  - split; [|tauto]. intros H. split; [exact H|discriminate].
Qed.

(** What the [finally] block leaves on disk. *)
Lemma in_fs_finally (x : path) (s : st) :
  In x (fs (finally_ s)) <->
  In x (fs s) /\ core_path s <> Some x /\ intro_path s <> Some x /\
  concat_path s <> Some x /\ (forall ext, x <> PassLog ext).
Proof.
  unfold finally_, passlog_exts. cbn [fs with_fs fold_left]. unfold remove_.
  rewrite !in_remove_, !in_remove_if_set. split.
  - intros (((((((((H & H1) & H2) & H3) & E1) & E2) & E3) & E4) & E5) & E6).
    repeat split; try assumption.
    intros []; assumption.
  - intros (H & H1 & H2 & H3 & HE). repeat split; try assumption; apply HE.
Qed.

Ltac run_cases j e :=
  run_unfold;
  destruct (Qeq_dec (speed_factor j) 0); cbn; [|
  destruct (estimate_bitrate j e) as [? ?|?|]; cbn;
  [destruct (audio_filter_chain (speed_factor j)); cbn; [|];
   [destruct (core_proc e) as [?p1|]; cbn;
   [destruct (p_returncode p1 =? 0)%Z; cbn;
    [destruct (skip_intro j); cbn;
     [match goal with
      | |- context [if ?b then (Next tt, _) else _] => destruct b; cbn
      end
     |destruct (intro_proc e) as [?p2|]; cbn;
      [destruct (p_returncode p2 =? 0)%Z; cbn;
       [destruct (concat_proc e) as [?p3|]; cbn;
        [destruct (p_returncode p3 =? 0)%Z; cbn| ]
       | ]
      | ]
     ]
    | ]
   | ] | ]
  | | ]].

(** The local [concat_path] is [None] when the [finally] block runs. *)
Lemma concat_path_unset (j : job) (e : env) (fs0 : list path) :
  concat_path (run_except j e fs0) = None.
Proof.
  run_cases j e;
    repeat match goal with
           | |- context [p_wrote_output ?p] => destruct (p_wrote_output p); cbn
           end; reflexivity.
Qed.

(** Past the two early exits of [run_try], for a job with a speed above 0
    whose budget is settled. *)
Lemma run_try_encode (j : job) (e : env) (ak vk : Z) :
  0 < speed_factor j -> estimate_bitrate j e = BudgetOk ak vk ->
  exists chain,
    audio_filter_chain (speed_factor j) = Some chain /\
    (if Qeq_dec (speed_factor j) 0 then true else false) = false.
Proof.
  intros Hs Hb. pose proof (audio_filter_chain_exits _ Hs) as Hc.
  destruct (audio_filter_chain (speed_factor j)) as [ch|]; [|now destruct Hc].
  exists ch. split; [reflexivity|].
  destruct (Qeq_dec (speed_factor j) 0) as [E|_]; [exfalso; lra|reflexivity].
Qed.

Lemma signals_encoding (j : job) (e : env) (fs0 : list path) (ak vk : Z) :
  0 < speed_factor j -> estimate_bitrate j e = BudgetOk ak vk ->
  signals j e fs0 = signals_encode j e fs0.
Proof.
  intros Hs Hb. destruct (run_try_encode _ _ _ _ Hs Hb) as (ch & Hc & Hz).
  unfold signals.
  destruct (Qeq_dec (speed_factor j) 0); [discriminate Hz|].
  rewrite Hb, Hc. reflexivity.
Qed.

Ltac run_encode Hs Hb :=
  let ch := fresh "ch" in
  let Hc := fresh "Hc" in
  let Hz := fresh "Hz" in
  destruct (run_try_encode _ _ _ _ Hs Hb) as (ch & Hc & Hz);
  run_unfold;
  match goal with
  | |- context [Qeq_dec (speed_factor ?j) 0] =>
      destruct (Qeq_dec (speed_factor j) 0); [discriminate Hz|]
  end;
  cbn; rewrite Hb; cbn; rewrite Hc; cbn.

(** Once INTRO has succeeded the list file is on disk before [finally]. *)
Lemma concat_list_written (j : job) (e : env) (fs0 : list path)
    (ak vk : Z) (proc1 proc2 : proc) :
  0 < speed_factor j ->
  estimate_bitrate j e = BudgetOk ak vk ->
  core_proc e = Some proc1 -> p_returncode proc1 = 0%Z ->
  skip_intro j = false ->
  intro_proc e = Some proc2 -> p_returncode proc2 = 0%Z ->
  In ConcatListTmp (fs (run_except j e fs0)).
Proof.
  intros Hp Hb H1 R1 Hs H2 R2. run_encode Hp Hb.
  rewrite H1. cbn. rewrite R1, Hs. cbn. rewrite H2. cbn. rewrite R2. cbn.
  destruct (concat_proc e) as [p3|]; cbn.
  - destruct (p_returncode p3 =? 0)%Z; cbn;
      destruct (p_wrote_output proc1), (p_wrote_output proc2),
        (p_wrote_output p3); cbn;
      rewrite ?in_create; auto 6.
  - destruct (p_wrote_output proc1), (p_wrote_output proc2); cbn;
      rewrite ?in_create; auto 6.
Qed.

(** The locals [core_path] and [intro_path] only ever hold the names of
    the core and the intro file. *)
Lemma path_locals (j : job) (e : env) (fs0 : list path) :
  (forall p, core_path (run_except j e fs0) = Some p -> p = CoreTmp) /\
  (forall p, intro_path (run_except j e fs0) = Some p -> p = IntroTmp).
Proof.
  split; intros p; run_cases j e;
    repeat match goal with
           | |- context [p_wrote_output ?p] => destruct (p_wrote_output p); cbn
           end; congruence.
Qed.

(** C1, at the failing path.  Whenever the job reaches the CONCAT stage
    (a speed above 0, fades on, a positive intro, CORE and INTRO
    succeeded), [run] returns and the concat list file is still on disk,
    whatever CONCAT does: the [finally] block looks at [concat_path],
    which was never assigned. *)
Theorem concat_list_left_behind (j : job) (e : env) (fs0 : list path)
    (ak vk : Z) (proc1 proc2 : proc) :
  0 < speed_factor j ->
  estimate_bitrate j e = BudgetOk ak vk ->
  core_proc e = Some proc1 -> p_returncode proc1 = 0%Z ->
  skip_intro j = false ->
  intro_proc e = Some proc2 -> p_returncode proc2 = 0%Z ->
  returns j e fs0 = true /\ In ConcatListTmp (fs (run j e fs0)).
Proof.
  intros Hp Hb H1 R1 Hs H2 R2.
  pose proof (run_returns j e fs0 Hp) as Hr. split; [exact Hr|].
  unfold run. rewrite Hr. apply in_fs_finally.
  rewrite concat_path_unset.
  split; [eapply concat_list_written; eassumption|].
  destruct (path_locals j e fs0) as [P Q].
  repeat split; try discriminate.
  - intros E. apply P in E. discriminate.
  - intros E. apply Q in E. discriminate.
Qed.

Lemma concat_list_left_behind_witness :
  In ConcatListTmp (fs (run (init_attrs args_intro) (env_ok 1000000) [])).
Proof.
  apply (concat_list_left_behind (init_attrs args_intro) (env_ok 1000000) []
           128 10404 (quiet_proc 0) (quiet_proc 0)); reflexivity.
Defined.

(** The core file, the intro file and the pass-log names do not outlive
    a job that returns. *)
Lemma other_artifacts_removed (j : job) (e : env) (fs0 : list path) :
  returns j e fs0 = true ->
  ~ In CoreTmp fs0 -> ~ In IntroTmp fs0 ->
  ~ In CoreTmp (fs (run j e fs0)) /\
  ~ In IntroTmp (fs (run j e fs0)) /\
  (forall ext, ~ In (PassLog ext) (fs (run j e fs0))).
Proof.
  intros Hr N1 N2. unfold run. rewrite Hr. clear Hr. split; [|split].
  - intros H. apply in_fs_finally in H. destruct H as (Hin & Hc & _).
    revert Hin Hc. run_cases j e;
      repeat match goal with
             | |- context [p_wrote_output ?p] => destruct (p_wrote_output p); cbn
             end;
      rewrite ?in_create, ?in_remove_, ?in_create; intuition congruence.
  - intros H. apply in_fs_finally in H. destruct H as (Hin & _ & Hi & _).
    revert Hin Hi. run_cases j e;
      repeat match goal with
             | |- context [p_wrote_output ?p] => destruct (p_wrote_output p); cbn
             end;
      rewrite ?in_create, ?in_remove_, ?in_create; intuition congruence.
  - intros ext H. apply in_fs_finally in H.
    destruct H as (_ & _ & _ & _ & H). now apply (H ext).
Qed.

Lemma skip_intro_no_intro (j : job) :
  intro_still_sec j <= 0 -> skip_intro j = true.
Proof.
  intros H. unfold skip_intro.
  destruct (Qlt_le_dec (1 # 10000) (intro_still_sec j)) as [l|_].
  - exfalso. lra.
  - apply orb_true_r.
Qed.

Lemma init_intro_forced (a : args) :
  a_intro_from_midpoint a = false \/ a_intro_still_sec a <= 0 ->
  intro_still_sec (init_attrs a) = 0.
Proof.
  intros H. cbn [init_attrs intro_still_sec]. unfold init_intro_still_sec.
  destruct H as [->|H]; [reflexivity|].
  destruct (Qlt_le_dec 0 (a_intro_still_sec a)) as [l|_].
  - exfalso. apply (Qlt_not_le _ _ l H).
  - now rewrite orb_true_r.
Qed.

(** On the skip condition of line 640 neither INTRO nor CONCAT is started. *)
Lemma skip_intro_no_stage (j : job) (e : env) (fs0 : list path) :
  skip_intro j = true ->
  ~ spawned INTRO (signals j e fs0) /\ ~ spawned CONCAT (signals j e fs0).
Proof.
  intros Hs. unfold spawned.
  split; intros H; revert H Hs; signals_cases j e fs0; intros H Hs;
    try discriminate Hs; in_events H.
Qed.

(** C10.  A job constructed without the from-midpoint flag, or with a
    non-positive intro duration, has an effective intro still duration of
    0, and its run starts neither the INTRO nor the CONCAT stage. *)
Theorem no_midpoint_no_intro (a : args) (j : job) (e : env) (fs0 : list path) :
  init a = Some j ->
  a_intro_from_midpoint a = false \/ a_intro_still_sec a <= 0 ->
  intro_still_sec j = 0 /\
  ~ spawned INTRO (trace (run j e fs0)) /\
  ~ spawned CONCAT (trace (run j e fs0)).
Proof.
  intros Hi H. apply init_some in Hi. destruct Hi as [-> _].
  pose proof (init_intro_forced a H) as E.
  split; [exact E|]. rewrite run_signals.
  apply skip_intro_no_stage, skip_intro_no_intro. rewrite E. apply Qle_refl.
Qed.

Lemma no_midpoint_no_intro_witness :
  intro_still_sec (init_attrs args_intro_no_midpoint) = 0 /\
  ~ spawned INTRO
      (trace (run (init_attrs args_intro_no_midpoint) (env_ok 1000000) [])) /\
  ~ spawned CONCAT
      (trace (run (init_attrs args_intro_no_midpoint) (env_ok 1000000) [])).
Proof.
  apply (no_midpoint_no_intro args_intro_no_midpoint
           (init_attrs args_intro_no_midpoint) (env_ok 1000000) []).
  - reflexivity.
  - left. reflexivity.
Defined.

Lemma skip_intro_init (a : args) :
  a_disable_fades a = true \/ a_intro_still_sec a <= 0 ->
  skip_intro (init_attrs a) = true.
Proof.
  intros [H|H].
  - unfold skip_intro. cbn [init_attrs disable_fades]. now rewrite H.
  - apply skip_intro_no_intro.
    rewrite (init_intro_forced a (or_intror H)). apply Qle_refl.
Qed.

(** C7, as the code has it.  For a job with a speed above 0, with fades
    disabled or no positive intro duration requested, a CORE stage that
    exits with 0 is followed by neither INTRO nor CONCAT, and [run]
    returns.  When the move of the core file to the output path succeeds,
    the job emits 100 and its success result, the output file exists and
    the core file is gone; when it fails, the job ends with "Failed to
    finalize output file.". *)
Theorem core_only_delivery (a : args) (j : job) (e : env) (fs0 : list path)
    (ak vk : Z) (proc1 : proc) :
  init a = Some j -> 0 < a_speed_factor a ->
  a_disable_fades a = true \/ a_intro_still_sec a <= 0 ->
  estimate_bitrate j e = BudgetOk ak vk ->
  core_proc e = Some proc1 -> p_returncode proc1 = 0%Z ->
  let s := run j e fs0 in
  let core_signals :=
    EProgress 0 :: ESpawn CORE ::
    map EProgress (core_progress_values j (p_lines proc1)) in
  returns j e fs0 = true /\
  ~ spawned INTRO (trace s) /\ ~ spawned CONCAT (trace s) /\
  (core_moved e proc1 fs0 = true ->
   trace s = core_signals ++ [EProgress 100; EFinished true MsgOutputPath] /\
   In OutputFile (fs s) /\ ~ In CoreTmp (fs s)) /\
  (core_moved e proc1 fs0 = false ->
   trace s = core_signals ++ [EFinished false MsgFinalizeFailed]).
Proof.
  intros Hi Hp H Hb H1 R1. cbv zeta.
  apply init_some in Hi. destruct Hi as [-> _].
  change (0 < speed_factor (init_attrs a)) in Hp.
  pose proof (skip_intro_init a H) as Hs. clear H.
  set (j := init_attrs a) in *. clearbody j.
  pose proof (run_returns j e fs0 Hp) as Hr.
  split; [exact Hr|].
  rewrite run_signals.
  destruct (skip_intro_no_stage j e fs0 Hs) as [N1 N2].
  split; [exact N1|]. split; [exact N2|].
  assert (T : signals j e fs0
              = EProgress 0 :: ESpawn CORE ::
                map EProgress (core_progress_values j (p_lines proc1)) ++
                (if core_moved e proc1 fs0
                 then [EProgress 100; EFinished true MsgOutputPath]
                 else [EFinished false MsgFinalizeFailed])).
  { rewrite (signals_encoding j e fs0 ak vk Hp Hb).
    unfold signals_encode, signals_after_core.
    rewrite H1, R1, Hs. reflexivity. }
  split; intros Hm; rewrite Hm in T; [|exact T].
  split; [exact T|].
  unfold run. rewrite Hr. rewrite !in_fs_finally. unfold core_moved in Hm.
  run_encode Hp Hb. rewrite H1. cbn. rewrite R1, Hs. cbn.
  destruct (p_wrote_output proc1); cbn.
  - rewrite exists_create. cbn in Hm. rewrite Hm. cbn.
    rewrite !in_create, !in_remove_. split.
    + split; [now left|]. repeat split; discriminate.
    + intros ([E|[_ N]] & _); [discriminate|]. now apply N.
  - cbn in Hm. rewrite Hm. cbn.
    rewrite !in_create, !in_remove_. split.
    + split; [now left|]. repeat split; discriminate.
    + intros ([E|[_ N]] & _); [discriminate|]. now apply N.
Qed.

Lemma core_only_delivery_witness :
  succeeded (run (init_attrs args_plain) (env_ok 1000000) []) /\
  In OutputFile (fs (run (init_attrs args_plain) (env_ok 1000000) [])).
Proof.
  destruct (core_only_delivery args_plain (init_attrs args_plain)
              (env_ok 1000000) [] 128 11042 (quiet_proc 0))
    as (_ & _ & _ & H & _).
  - reflexivity.
  - reflexivity.
  - right. vm_compute. discriminate.
  - reflexivity.
  - reflexivity.
  - reflexivity.
  - destruct H as (T & O & _); [reflexivity|].
    split; [|exact O]. unfold succeeded. rewrite T. vm_compute. tauto.
Defined.

(** A successful CORE stage of a job without intro, followed by a move
    that fails, ends in a failure result. *)
Lemma core_only_delivery_counterexample :
  exists j, init args_plain = Some j /\
    a_intro_still_sec args_plain <= 0 /\
    core_proc (env_core (quiet_proc 0) false) = Some (quiet_proc 0) /\
    p_returncode (quiet_proc 0) = 0%Z /\
    trace (run j (env_core (quiet_proc 0) false) [])
    = [EProgress 0; ESpawn CORE; EFinished false MsgFinalizeFailed] /\
    ~ succeeded (run j (env_core (quiet_proc 0) false) []).
Proof.
  eexists. split; [reflexivity|].
  split; [vm_compute; discriminate|]. repeat split.
  unfold succeeded. vm_compute. intros H. in_events H.
Qed.

(** ** Progress *)

Lemma core_progress_weight_cases (j : job) :
  core_progress_weight j = 8 # 10 \/ core_progress_weight j = 1.
Proof.
  unfold core_progress_weight.
  destruct (Qlt_le_dec 0 (intro_still_sec j)); [now left|now right].
Qed.

Lemma core_progress_weight_intro (j : job) :
  skip_intro j = false -> core_progress_weight j = 8 # 10.
Proof.
  unfold skip_intro, core_progress_weight. intros H.
  apply orb_false_elim in H. destruct H as [_ H].
  destruct (Qlt_le_dec (1 # 10000) (intro_still_sec j)) as [l|_];
    [|discriminate].
  destruct (Qlt_le_dec 0 (intro_still_sec j)) as [_|l']; [reflexivity|].
  exfalso. lra.
Qed.

Lemma core_progress_weight_no_intro (j : job) :
  intro_still_sec j <= 0 -> core_progress_weight j = 1.
Proof.
  unfold core_progress_weight. intros H.
  destruct (Qlt_le_dec 0 (intro_still_sec j)) as [l|_]; [|reflexivity].
  exfalso. apply (Qlt_not_le _ _ l H).
Qed.

Lemma core_progress_floor (w dur t : Q) :
  core_progress w dur t = Qfloor (Qmax 0 (Qmin (100 * w) (t / dur * 100 * w))).
Proof. unfold core_progress. apply py_int_nonneg, Qmax_0_nonneg. Qed.

Lemma scaled_time_mono (w dur t1 t2 : Q) :
  0 <= w -> 0 < dur -> t1 <= t2 ->
  t1 / dur * 100 * w <= t2 / dur * 100 * w.
Proof.
  intros Hw Hd Ht.
  assert (H : t1 / dur <= t2 / dur).
  { unfold Qdiv. apply Qmult_le_compat_r; [exact Ht|].
    apply Qlt_le_weak, Qinv_lt_0_compat, Hd. }
  nra.
Qed.

Lemma core_progress_mono (w dur t1 t2 : Q) :
  0 <= w -> 0 < dur -> t1 <= t2 ->
  (core_progress w dur t1 <= core_progress w dur t2)%Z.
Proof.
  intros Hw Hd Ht. rewrite !core_progress_floor.
  apply Qfloor_resp_le, Q.max_le_compat_l, Q.min_le_compat_l.
  now apply scaled_time_mono.
Qed.

Lemma core_progress_range (w dur t : Q) :
  0 <= w -> (0 <= core_progress w dur t <= Qfloor (100 * w))%Z.
Proof.
  intros Hw. rewrite core_progress_floor. split.
  - change 0%Z with (Qfloor 0). apply Qfloor_resp_le, Qmax_0_nonneg.
  - apply Qfloor_resp_le, Q.max_lub; [lra|apply Q.le_min_l].
Qed.

(** A CORE progress of 100 needs the full weight and a timestamp at or
    past the clip duration. *)
Lemma core_progress_full (w dur t : Q) :
  w = 8 # 10 \/ w = 1 -> 0 < dur -> core_progress w dur t = 100%Z ->
  w = 1 /\ dur <= t.
Proof.
  intros Hw Hd H. rewrite core_progress_floor in H.
  set (x := Qmax 0 (Qmin (100 * w) (t / dur * 100 * w))) in *.
  assert (Hx : 100 <= x).
  { pose proof (Qfloor_le x) as L. rewrite H in L. exact L. }
  assert (Hm : 100 <= Qmin (100 * w) (t / dur * 100 * w)).
  { unfold x in Hx.
    destruct (Q.max_spec 0 (Qmin (100 * w) (t / dur * 100 * w)))
      as [[_ E]|[_ E]]; rewrite E in Hx; [exact Hx|].
    exfalso. lra. }
  assert (H1 : 100 <= 100 * w)
    by (eapply Qle_trans; [exact Hm|apply Q.le_min_l]).
  assert (H2 : 100 <= t / dur * 100 * w)
    by (eapply Qle_trans; [exact Hm|apply Q.le_min_r]).
  destruct Hw as [-> | ->]; [exfalso; lra|].
  split; [reflexivity|].
  assert (E : t == (t / dur) * dur) by (field; lra).
  assert (H3 : 1 <= t / dur) by lra.
  rewrite E. nra.
Qed.

Lemma core_progress_values_timed (j : job) (lines : list (option Q)) :
  0 < duration_corrected j ->
  core_progress_values j lines
  = map (core_progress (core_progress_weight j) (duration_corrected j))
      (timestamps lines).
Proof.
  intros Hd. unfold core_progress_values, timestamps.
  induction lines as [|[t|] lines IH]; cbn [flat_map map app].
  - reflexivity.
  - destruct (Qlt_le_dec 0 (duration_corrected j)) as [_|l];
      [|exfalso; apply (Qlt_not_le _ _ Hd l)].
    cbn [app map]. f_equal. exact IH.
  - exact IH.
Qed.

Lemma core_progress_values_untimed (j : job) (lines : list (option Q)) :
  duration_corrected j <= 0 -> core_progress_values j lines = [].
Proof.
  intros Hd. unfold core_progress_values.
  induction lines as [|[t|] lines IH]; cbn [flat_map app]; [reflexivity| |exact IH].
  destruct (Qlt_le_dec 0 (duration_corrected j)) as [l|_];
    [exfalso; apply (Qlt_not_le _ _ l Hd)|exact IH].
Qed.

Lemma timestamps_in (t : Q) (lines : list (option Q)) :
  In t (timestamps lines) -> In (Some t) lines.
Proof.
  unfold timestamps. intros H. apply in_flat_map in H.
  destruct H as ([u|] & Hin & Hu); cbn in Hu; [|contradiction].
  destruct Hu as [->|[]]. exact Hin.
Qed.

(** C5, where the code departs from it.  For a constructed job with fades
    disabled and a positive intro duration from the midpoint, line 618
    gives CORE the weight 0.8 although the skip condition of line 640
    holds: the weight that follows the stages is 1.0, no run of the job
    starts INTRO or CONCAT, and no CORE progress value exceeds 80. *)
Theorem core_weight_ignores_fades (a : args) (j : job) (e : env)
    (fs0 : list path) (lines : list (option Q)) :
  init a = Some j ->
  a_disable_fades a = true -> a_intro_from_midpoint a = true ->
  0 < a_intro_still_sec a ->
  core_progress_weight j = 8 # 10 /\
  spec_core_weight j = 1 /\
  ~ spawned INTRO (trace (run j e fs0)) /\
  ~ spawned CONCAT (trace (run j e fs0)) /\
  Forall (fun p => (p <= 80)%Z) (core_progress_values j lines).
Proof.
  intros Hi Hf Hm Hp. apply init_some in Hi. destruct Hi as [-> _].
  assert (Hs : skip_intro (init_attrs a) = true)
    by (apply skip_intro_init; now left).
  assert (Hw : core_progress_weight (init_attrs a) = 8 # 10).
  { unfold core_progress_weight. cbn [init_attrs intro_still_sec].
    unfold init_intro_still_sec. rewrite Hm. cbn [negb orb].
    destruct (Qlt_le_dec 0 (a_intro_still_sec a)) as [l|l];
      [|exfalso; apply (Qlt_not_le _ _ Hp l)].
    destruct (Qlt_le_dec 0 (a_intro_still_sec a)) as [_|l'];
      [reflexivity|exfalso; apply (Qlt_not_le _ _ Hp l')]. }
  split; [exact Hw|]. split; [unfold spec_core_weight; now rewrite Hs|].
  rewrite run_signals.
  destruct (skip_intro_no_stage (init_attrs a) e fs0 Hs) as [N1 N2].
  split; [exact N1|]. split; [exact N2|].
  set (j := init_attrs a) in *. clearbody j.
  destruct (Qlt_le_dec 0 (duration_corrected j)) as [Hd|Hd];
    [|rewrite core_progress_values_untimed by exact Hd; constructor].
  rewrite core_progress_values_timed by exact Hd.
  apply Forall_map, Forall_forall. intros t _. rewrite Hw.
  assert (H8 : 0 <= 8 # 10) by discriminate.
  pose proof (core_progress_range (8 # 10) (duration_corrected j) t H8) as [_ U].
  vm_compute (Qfloor _) in U. exact U.
Qed.

Lemma core_weight_ignores_fades_witness :
  core_progress_weight (init_attrs args_nofade_intro) = 8 # 10 /\
  spec_core_weight (init_attrs args_nofade_intro) = 1 /\
  ~ spawned INTRO
      (trace (run (init_attrs args_nofade_intro)
                (env_core (timed_proc [30] 0) true) [])).
Proof.
  destruct (core_weight_ignores_fades args_nofade_intro
              (init_attrs args_nofade_intro)
              (env_core (timed_proc [30] 0) true) [] [Some 30])
    as (W & S & N & _).
  - reflexivity.
  - reflexivity.
  - reflexivity.
  - reflexivity.
  - split; [exact W|]. split; [exact S|exact N].
Defined.

(** The run of such a job: fades disabled, a 2 s intro from the midpoint,
    a 30 s clip whose encoder reports the timestamp 30 and exits with 0.
    CORE reports 80 (Python: 30/30 is 1.0 and 1.0*100*0.8 rounds to 80.0),
    where the specification's formula gives 100; no INTRO follows and the
    bar jumps to 100. *)
Lemma core_weight_failing_run :
  exists j, init args_nofade_intro = Some j /\
    trace (run j (env_core (timed_proc [30] 0) true) [])
    = [EProgress 0; ESpawn CORE; EProgress 80; EProgress 100;
       EFinished true MsgOutputPath] /\
    core_progress_weight j = 8 # 10 /\
    spec_core_weight j = 1 /\
    ~ inject_Z 80 == spec_core_progress j 30.
Proof.
  eexists. split; [reflexivity|].
  split; [vm_compute; reflexivity|]. split; [reflexivity|].
  split; [reflexivity|]. vm_compute. discriminate.
Qed.

(** ** The progress contract *)

Lemma ramp_nil (P : Prop) (lo hi : Z) : ramp P lo hi [].
Proof. split; [constructor|intros _; constructor]. Qed.

Lemma ramp_single (P : Prop) (lo hi x : Z) :
  (lo <= x <= hi)%Z -> ramp P lo hi [x].
Proof.
  intros H. split; [now repeat constructor|].
  intros _. repeat constructor.
Qed.

Lemma ramp_const (P : Prop) (A : Type) (c : Z) (l : list A) :
  ramp P c c (map (fun _ => c) l).
Proof.
  split.
  - apply Forall_map, Forall_forall. intros _ _. lia.
  - intros _. induction l as [|a l IH]; cbn [map]; constructor; [exact IH|].
    apply Forall_map, Forall_forall. intros _ _. lia.
Qed.

Lemma ramp_weaken (P : Prop) (lo hi lo' hi' : Z) (l : list Z) :
  (lo' <= lo)%Z -> (hi <= hi')%Z -> ramp P lo hi l -> ramp P lo' hi' l.
Proof.
  intros H1 H2 [B S]. split; [|exact S].
  eapply Forall_impl; [|exact B]. cbn. intros x Hx. lia.
Qed.

Lemma ramp_app (P : Prop) (lo mid hi : Z) (l1 l2 : list Z) :
  (lo <= mid <= hi)%Z ->
  ramp P lo mid l1 -> ramp P mid hi l2 -> ramp P lo hi (l1 ++ l2).
Proof.
  intros Hm [B1 S1] [B2 S2]. split.
  - apply Forall_app. split.
    + eapply Forall_impl; [|exact B1]. cbn. intros x Hx. lia.
    + eapply Forall_impl; [|exact B2]. cbn. intros x Hx. lia.
  - intros HP. specialize (S1 HP). specialize (S2 HP).
    induction l1 as [|x l1 IH]; cbn [app]; [exact S2|].
    apply StronglySorted_inv in S1. destruct S1 as [S1 F1].
    apply Forall_cons_iff in B1. destruct B1 as [Bx B1].
    constructor; [apply IH; assumption|].
    apply Forall_app. split; [exact F1|].
    eapply Forall_impl; [|exact B2]. cbn. intros y Hy. lia.
Qed.

Lemma progress_values_app (t1 t2 : list event) :
  progress_values (t1 ++ t2) = progress_values t1 ++ progress_values t2.
Proof. unfold progress_values. apply flat_map_app. Qed.

Lemma progress_values_map (l : list Z) :
  progress_values (map EProgress l) = l.
Proof.
  induction l as [|x l IH]; [reflexivity|]. cbn. f_equal. exact IH.
Qed.

Lemma progress_values_const (A : Type) (c : Z) (l : list A) :
  progress_values (map (fun _ => EProgress c) l) = map (fun _ => c) l.
Proof.
  induction l as [|x l IH]; [reflexivity|]. cbn. f_equal. exact IH.
Qed.

Lemma ramp_concat (P : Prop) (e : env) :
  ramp P 99 100 (progress_values (signals_concat e)).
Proof.
  unfold signals_concat. destruct (concat_proc e) as [p3|]; [|apply ramp_nil].
  cbn [progress_values flat_map app]. fold (progress_values).
  rewrite progress_values_app, progress_values_const.
  apply (ramp_app P 99 99 100); [lia|apply ramp_const|].
  destruct (p_returncode p3 =? 0)%Z; cbn.
  - apply ramp_single. lia.
  - apply ramp_nil.
Qed.

Lemma ramp_intro (P : Prop) (e : env) :
  ramp P 95 100 (progress_values (signals_intro e)).
Proof.
  unfold signals_intro. destruct (intro_proc e) as [p2|]; [|apply ramp_nil].
  cbn [progress_values flat_map app]. fold (progress_values).
  rewrite progress_values_app, progress_values_const.
  apply (ramp_app P 95 95 100); [lia|apply ramp_const|].
  destruct (p_returncode p2 =? 0)%Z.
  - apply (ramp_weaken P 99 100); [lia|lia|apply ramp_concat].
  - apply ramp_nil.
Qed.

Lemma ramp_after_core (P : Prop) (j : job) (e : env) (p1 : proc)
    (fs0 : list path) :
  ramp P (if skip_intro j then 100 else 80) 100
    (progress_values (signals_after_core j e p1 fs0)).
Proof.
  unfold signals_after_core.
  destruct (negb (p_returncode p1 =? 0)%Z); [apply ramp_nil|].
  destruct (skip_intro j).
  - destruct (core_moved e p1 fs0); [apply ramp_single; lia|apply ramp_nil].
  - apply (ramp_weaken P 95 100); [lia|lia|apply ramp_intro].
Qed.

Lemma ramp_core (j : job) (e : env) (p1 : proc) :
  core_proc e = Some p1 ->
  ramp (ordered_timestamps e) 0 (if skip_intro j then 100 else 80)
    (core_progress_values j (p_lines p1)).
Proof.
  intros H1.
  destruct (Qlt_le_dec 0 (duration_corrected j)) as [Hd|Hd];
    [|rewrite core_progress_values_untimed by exact Hd; apply ramp_nil].
  rewrite core_progress_values_timed by exact Hd.
  assert (Hw : 0 <= core_progress_weight j)
    by (destruct (core_progress_weight_cases j) as [-> | ->]; discriminate).
  split.
  - apply Forall_map, Forall_forall. intros t _.
    pose proof (core_progress_range (core_progress_weight j)
                  (duration_corrected j) t Hw) as [L U].
    split; [exact L|].
    destruct (skip_intro j) eqn:Hs.
    + destruct (core_progress_weight_cases j) as [E|E]; rewrite E in U |- *;
        vm_compute (Qfloor _) in U; lia.
    + rewrite (core_progress_weight_intro j Hs) in U |- *.
      vm_compute (Qfloor _) in U. exact U.
  - intros Ho. specialize (Ho p1 H1).
    induction Ho as [|t ts _ IH F]; cbn [map]; constructor; [exact IH|].
    apply Forall_map. eapply Forall_impl; [|exact F].
    cbn. intros u Hu. now apply core_progress_mono.
Qed.

(** The progress values of a run stay in [[0, 100]] and, when the CORE
    timestamps are ordered, never decrease. *)
Lemma ramp_signals (j : job) (e : env) (fs0 : list path) :
  ramp (ordered_timestamps e) 0 100 (progress_values (signals j e fs0)).
Proof.
  unfold signals, signals_encode.
  destruct (Qeq_dec (speed_factor j) 0); [apply ramp_nil|].
  destruct (estimate_bitrate j e); [|apply ramp_nil..].
  destruct (audio_filter_chain (speed_factor j)); [|apply ramp_nil].
  change (progress_values (EProgress 0 :: ?t)) with ([0%Z] ++ progress_values t).
  apply (ramp_app _ 0 0 100); [lia|apply ramp_single; lia|].
  destruct (core_proc e) as [p1|] eqn:H1; [|apply ramp_nil].
  change (progress_values (ESpawn CORE :: ?t)) with (progress_values t).
  rewrite progress_values_app, progress_values_map.
  apply (ramp_app _ 0 (if skip_intro j then 100 else 80) 100).
  - destruct (skip_intro j); lia.
  - now apply ramp_core.
  - apply ramp_after_core.
Qed.

Lemma in_progress_values (p : Z) (t : list event) :
  In p (progress_values t) <-> In (EProgress p) t.
Proof.
  unfold progress_values. rewrite in_flat_map. split.
  - intros ([q|sg|ok m] & Hin & Hp); cbn in Hp; try contradiction.
    destruct Hp as [->|[]]. exact Hin.
  - intros H. exists (EProgress p). split; [exact H|now left].
Qed.

Lemma in_const_map (A : Type) (c x : Z) (l : list A) :
  In (EProgress x) (map (fun _ => EProgress c) l) -> x = c.
Proof.
  intros H. apply in_map_iff in H. destruct H as (_ & E & _). congruence.
Qed.

(** Every successful run has emitted 100. *)
Lemma success_emits_full (j : job) (e : env) (fs0 : list path) :
  In (EFinished true MsgOutputPath) (signals j e fs0) ->
  In (EProgress 100) (signals j e fs0).
Proof.
  signals_cases j e fs0; intros H; try (in_events H; fail); find_in.
Qed.

(** On a failed run, a 100 can only have come from the CORE stage. *)
Lemma failure_full_from_core (j : job) (e : env) (fs0 : list path) (m : result_msg) :
  In (EFinished false m) (signals j e fs0) ->
  In (EProgress 100) (signals j e fs0) ->
  exists p1, core_proc e = Some p1 /\
             In 100%Z (core_progress_values j (p_lines p1)).
Proof.
  signals_cases j e fs0; intros H F; try (in_events H; fail);
    try (in_events F; fail);
    try (exists p1; split; [reflexivity|]);
    repeat (cbn [In] in F; rewrite ?in_app_iff in F;
            match type of F with
            | _ \/ _ => destruct F as [F|F]
            | False => destruct F
            | In _ (map (fun _ => EProgress _) _) =>
                apply in_const_map in F; discriminate F
            | In _ (map EProgress _) =>
                apply in_map_iff in F; destruct F as (x & E & F);
                injection E as ->; exact F
            | _ = _ => discriminate F
            end).
Qed.

Lemma core_values_full (j : job) (lines : list (option Q)) :
  In 100%Z (core_progress_values j lines) ->
  core_progress_weight j = 1 /\
  exists t, In (Some t) lines /\ 0 < duration_corrected j /\
            duration_corrected j <= t.
Proof.
  destruct (Qlt_le_dec 0 (duration_corrected j)) as [Hd|Hd];
    [|rewrite core_progress_values_untimed by exact Hd; intros []].
  rewrite core_progress_values_timed by exact Hd. intros H.
  apply in_map_iff in H. destruct H as (t & E & Hin).
  destruct (core_progress_full _ _ _ (core_progress_weight_cases j) Hd E)
    as [Hw Ht].
  split; [exact Hw|]. exists t. split; [now apply timestamps_in|].
  split; assumption.
Qed.

(** C9, as the code has it.  The progress values of a job stay in
    [[0, 100]]; they never decrease when the CORE encoder reports its
    timestamps in order; a job that succeeds has emitted 100; and a job
    that fails has emitted 100 only if its CORE weight is 1.0 and a CORE
    timestamp reached the clip duration. *)
Theorem progress_contract (j : job) (e : env) (fs0 : list path) :
  let s := run j e fs0 in
  let ps := progress_values (trace s) in
  Forall (fun p => (0 <= p <= 100)%Z) ps /\
  (ordered_timestamps e -> StronglySorted Z.le ps) /\
  (succeeded s -> In 100%Z ps) /\
  (failed s -> In 100%Z ps ->
   core_progress_weight j = 1 /\
   exists proc1 t, core_proc e = Some proc1 /\ In (Some t) (p_lines proc1) /\
                   0 < duration_corrected j /\ duration_corrected j <= t).
Proof.
  cbv zeta. unfold succeeded, failed. rewrite run_signals.
  destruct (ramp_signals j e fs0) as [B S].
  split; [exact B|]. split; [exact S|]. split.
  - intros H. apply in_progress_values. now apply success_emits_full.
  - intros [m H] F. apply in_progress_values in F.
    destruct (failure_full_from_core j e fs0 m H F) as (p1 & H1 & Hc).
    destruct (core_values_full j _ Hc) as (Hw & t & Hin & Hd & Ht).
    split; [exact Hw|]. exists p1, t. repeat split; assumption.
Qed.

Lemma progress_contract_witness :
  StronglySorted Z.le
    (progress_values
       (trace (run (init_attrs args_intro) (env_core (timed_proc [15; 33] 0) true) [])))
  /\ In 100%Z
       (progress_values
          (trace (run (init_attrs args_intro) (env_core (timed_proc [15; 33] 0) true) []))).
Proof.
  destruct (progress_contract (init_attrs args_intro)
              (env_core (timed_proc [15; 33] 0) true) []) as (_ & S & F & _).
  split.
  - apply S. intros p H. injection H as <-. vm_compute.
    repeat constructor; discriminate.
  - apply F. vm_compute. auto 20.
Defined.

(** A core-only job whose encoder reports a timestamp at the clip duration
    and then exits with an error has emitted 100 and fails. *)
Lemma progress_full_on_failure_counterexample :
  exists j, init args_plain = Some j /\
    trace (run j (env_core (timed_proc [10; 33] 1) true) [])
    = [EProgress 0; ESpawn CORE; EProgress 30; EProgress 100;
       EFinished false MsgCoreFailed] /\
    failed (run j (env_core (timed_proc [10; 33] 1) true) []) /\
    In 100%Z
      (progress_values
         (trace (run j (env_core (timed_proc [10; 33] 1) true) []))).
Proof.
  eexists. split; [reflexivity|].
  split; [vm_compute; reflexivity|]. split.
  - exists MsgCoreFailed. vm_compute. auto 10.
  - vm_compute. auto 10.
Qed.
